(** * Run metadata reducer of the Dagit run view

    A shallow embedding of [RunMetadataProvider.tsx]: the summary fallback
    [extractMetadataFromRun] and the live-log reducer
    [extractMetadataFromLogs], with the properties of the run timeline
    specification stated and proved over them.

    Conventions of the embedding.
    - A JavaScript object used as a dictionary ([metadata.steps],
      [metadata.logCaptureSteps]) is a [gmap string _].
    - An optional field ([start?: number]) is an [option]; JavaScript
      truthiness ([0], the empty string, [null] and [undefined] are falsy)
      is written out by [truthyNum] and [truthyStr].
    - A log timestamp is the integer [Number.parseInt(log.timestamp, 10)],
      a [Z] (a timestamp that does not parse is outside the model, and
      [timestamp + 1] is exact, as it is for a JavaScript number below
      [2^53]); a persisted time is a JavaScript number, an IEEE 754
      double: a primitive [float], multiplied as the machine multiplies
      it.
    - A dictionary is written and read under ordinary keys; the names a
      plain JavaScript object inherits from [Object.prototype]
      ([objectPrototypeNames]) are not such keys, and statements about
      which keys a dictionary holds exclude them.
    - Objects mutated in place and re-stored under the same key are
      modelled by re-inserting the updated value under that key. *)

From stdpp Require Import ssreflect gmap strings list sorting pretty.
From Stdlib Require Import Floats.
Local Open Scope Z_scope.
Set Warnings "-rewrite-rw".

(** ** Data model *)

Inductive IStepState :=
  | PREPARING
  | RETRY_REQUESTED
  | RUNNING
  | SUCCEEDED
  | SKIPPED
  | FAILED
  | UNKNOWN.

#[global] Instance IStepState_eq_dec : EqDecision IStepState.
Proof. solve_decision. Defined.

Definition BOX_EXIT_STATES : list IStepState :=
  [RETRY_REQUESTED; SUCCEEDED; FAILED; UNKNOWN].

(** [BOX_EXIT_STATES.includes(s)] *)
Definition isBoxExitState (s : IStepState) : bool :=
  bool_decide (s ∈ BOX_EXIT_STATES).

Record IMarker := mkMarker {
  m_key : string;
  m_start : option Z;
  m_end : option Z;
}.

(** The interface declares [start: number], but the summary fallback casts
    objects whose [start] may be [undefined] to it, so the field is
    optional at run time. *)
Record IStepAttempt := mkAttempt {
  a_start : option Z;
  a_end : option Z;
  a_exitState : option IStepState;
}.

Record ITransition := mkTransition {
  t_state : IStepState;
  t_time : Z;
}.

Notation "s '@' t" := (mkTransition s t) (at level 25, no associativity).

Record IStepMetadata := mkStep {
  state : IStepState;
  start : option Z;
  end_ : option Z;
  transitions : list ITransition;
  attempts : list IStepAttempt;
  markers : list IMarker;
}.

Record ILogCaptureInfo := mkLogCapture {
  lc_fileKey : string;
  lc_stepKeys : list string;
  lc_pid : option string;
  lc_externalUrl : option string;
}.

Record IRunMetadataDict := mkMetadata {
  firstLogAt : Z;
  mostRecentLogAt : Z;
  startingProcessAt : option Z;
  startedProcessAt : option Z;
  startedPipelineAt : option Z;
  exitedAt : option Z;
  processId : option Z;
  globalMarkers : list IMarker;
  steps : gmap string IStepMetadata;
  logCaptureSteps : option (gmap string ILogCaptureInfo);
}.

Definition EMPTY_RUN_METADATA : IRunMetadataDict :=
  {| firstLogAt := 0; mostRecentLogAt := 0;
     startingProcessAt := None; startedProcessAt := None;
     startedPipelineAt := None; exitedAt := None; processId := None;
     globalMarkers := []; steps := ∅; logCaptureSteps := None |}.

(** ** JavaScript truthiness *)

Definition truthyNum (o : option Z) : bool :=
  match o with
  | Some n => negb (n =? 0)
  | None => false
  end.

(** A truthy string, or [None] for [null], [undefined] and [""] *)
Definition truthyStr (o : option string) : option string :=
  match o with
  | Some s => if decide (s = EmptyString) then None else Some s
  | None => None
  end.

(** ** Log events *)

(** The [__typename] tags the reducer inspects; every other event kind of
    the fragment is [OtherEvent]. *)
Inductive EventTypename :=
  | RunStartEvent
  | RunFailureEvent
  | RunSuccessEvent
  | RunCanceledEvent
  | EngineEvent
  | ResourceInitFailureEvent
  | ResourceInitStartedEvent
  | ResourceInitSuccessEvent
  | StepWorkerStartedEvent
  | StepWorkerStartingEvent
  | LogsCapturedEvent
  | ExecutionStepStartEvent
  | ExecutionStepSuccessEvent
  | ExecutionStepSkippedEvent
  | ExecutionStepFailureEvent
  | ExecutionStepUpForRetryEvent
  | ExecutionStepRestartEvent
  | ObjectStoreOperationEvent
  | OtherEvent.

#[global] Instance EventTypename_eq_dec : EqDecision EventTypename.
Proof. solve_decision. Defined.

(** One record of [RunMetadataProviderMessageFragment]. [timestamp] is the
    value of [Number.parseInt(log.timestamp, 10)]; the fields of the
    narrower fragments (markers, [operationResult.op], log capture) are
    read only under the [__typename] tests of the source. *)
Record LogEvent := mkLog {
  typename : EventTypename;
  timestamp : Z;
  stepKey : option string;
  markerStart : option string;
  markerEnd : option string;
  operationResult_op : string;
  fileKey : string;
  stepKeys : option (list string);
  pid : option Z;
  externalUrl : option string;
}.

Definition refineMarkerEvent (log : LogEvent) : option LogEvent :=
  match typename log with
  | EngineEvent
  | ResourceInitFailureEvent
  | ResourceInitStartedEvent
  | ResourceInitSuccessEvent
  | StepWorkerStartedEvent
  | StepWorkerStartingEvent => Some log
  | _ => None
  end.

(** ** The live-log reducer *)

(** [set.find((f) => f.key === key && !f.end)] followed by an update of the
    marker found: the first open marker with this key is updated in place;
    [None] when there is none. *)
Fixpoint updateOpenMarker (upd : IMarker → IMarker) (key : string)
    (set : list IMarker) : option (list IMarker) :=
  match set with
  | [] => None
  | f :: rest =>
      if bool_decide (m_key f = key) && negb (truthyNum (m_end f))
      then Some (upd f :: rest)
      else (f ::.) <$> updateOpenMarker upd key rest
  end.

(** [upd(upsertMarker(set, key))]: the open marker with this key, or a new
    marker put at the front of the set, receives the assignment [upd]. *)
Definition upsertMarker (upd : IMarker → IMarker) (set : list IMarker)
    (key : string) : list IMarker :=
  match updateOpenMarker upd key set with
  | Some set' => set'
  | None => upd (mkMarker key None None) :: set
  end.

Definition setMarkerStart (ts : Z) (m : IMarker) : IMarker :=
  mkMarker (m_key m) (Some ts) (m_end m).

Definition setMarkerEnd (ts : Z) (m : IMarker) : IMarker :=
  mkMarker (m_key m) (m_start m) (Some ts).

(** The two marker assignments of a marker-capable event on a marker set *)
Definition applyMarkers (log : LogEvent) (set : list IMarker) : list IMarker :=
  match refineMarkerEvent log with
  | Some markerEvent =>
      let set1 :=
        match truthyStr (markerStart markerEvent) with
        | Some k => upsertMarker (setMarkerStart (timestamp log)) set k
        | None => set
        end in
      match truthyStr (markerEnd markerEvent) with
      | Some k => upsertMarker (setMarkerEnd (timestamp log)) set1 k
      | None => set1
      end
  | None => set
  end.

Definition upsertState (step : IStepMetadata) (time : Z) (st : IStepState)
    : IStepMetadata :=
  {| state := st; start := start step; end_ := end_ step;
     transitions := transitions step ++ [st @ time];
     attempts := []; markers := markers step |}.

Definition setStart (step : IStepMetadata) (ts : Z) : IStepMetadata :=
  {| state := state step; start := Some ts; end_ := end_ step;
     transitions := transitions step; attempts := attempts step;
     markers := markers step |}.

(** [step.end = Math.max(timestamp, step.end || 0)] *)
Definition setEndMax (step : IStepMetadata) (ts : Z) : IStepMetadata :=
  {| state := state step; start := start step;
     end_ := Some (Z.max ts (if truthyNum (end_ step)
                             then default 0 (end_ step) else 0));
     transitions := transitions step; attempts := attempts step;
     markers := markers step |}.

Definition setMarkers (step : IStepMetadata) (ms : list IMarker)
    : IStepMetadata :=
  {| state := state step; start := start step; end_ := end_ step;
     transitions := transitions step; attempts := attempts step;
     markers := ms |}.

(** The step object made when [metadata.steps[stepKey]] is absent *)
Definition newStep (ts : Z) : IStepMetadata :=
  {| state := PREPARING; start := None; end_ := None;
     transitions := [PREPARING @ ts]; attempts := []; markers := [] |}.

Definition isRunTerminal (log : LogEvent) : bool :=
  match typename log with
  | RunFailureEvent | RunSuccessEvent | RunCanceledEvent => true
  | _ => false
  end.

(** The loop over [Object.values(metadata.steps)] of a run-terminal event *)
Definition forceUnknown (ts : Z) (step : IStepMetadata) : IStepMetadata :=
  if decide (state step = RUNNING) then upsertState step ts UNKNOWN else step.

(** The [if / else if] chain on [log.__typename] of a step-scoped event.
    [None] is the early [return] of a cache copy, which skips the final
    [metadata.steps[stepKey] = step]. *)
Definition applyStepEvent (log : LogEvent) (step : IStepMetadata)
    : option IStepMetadata :=
  let ts := timestamp log in
  match typename log with
  | ExecutionStepStartEvent => Some (setStart (upsertState step ts RUNNING) ts)
  | ExecutionStepSuccessEvent =>
      Some (setEndMax (upsertState step ts SUCCEEDED) ts)
  | ExecutionStepSkippedEvent => Some (upsertState step ts SKIPPED)
  | ExecutionStepFailureEvent =>
      Some (setEndMax (upsertState step ts FAILED) ts)
  | ExecutionStepUpForRetryEvent =>
      Some (upsertState (upsertState step ts RETRY_REQUESTED) (ts + 1) PREPARING)
  | ExecutionStepRestartEvent => Some (upsertState step ts RUNNING)
  | ObjectStoreOperationEvent =>
      if decide (operationResult_op log = "CP_OBJECT"%string) then None
      else Some step
  | _ => Some step
  end.

(** The [if (log.stepKey)] block on the step dictionary. On the early
    return the step object, when it was already in the dictionary, keeps
    what was assigned to it in place before the return. *)
Definition processStepKey (log : LogEvent)
    (sts : gmap string IStepMetadata) : gmap string IStepMetadata :=
  match truthyStr (stepKey log) with
  | Some k =>
      let step := default (newStep (timestamp log)) (sts !! k) in
      let step1 := setMarkers step (applyMarkers log (markers step)) in
      match applyStepEvent log step1 with
      | Some step2 => <[k := step2]> sts
      | None =>
          match sts !! k with
          | Some _ => <[k := step1]> sts
          | None => sts
          end
      end
  | None => sts
  end.

(** The body of [logs.forEach] *)
Definition processLog (metadata : IRunMetadataDict) (log : LogEvent)
    : IRunMetadataDict :=
  let ts := timestamp log in
  let terminal := isRunTerminal log in
  let steps1 :=
    if terminal then forceUnknown ts <$> steps metadata else steps metadata in
  {| firstLogAt :=
       if negb (firstLogAt metadata =? 0)
       then Z.min (firstLogAt metadata) ts else ts;
     mostRecentLogAt := Z.max (mostRecentLogAt metadata) ts;
     startingProcessAt := startingProcessAt metadata;
     startedProcessAt := startedProcessAt metadata;
     startedPipelineAt :=
       if decide (typename log = RunStartEvent) then Some ts
       else startedPipelineAt metadata;
     exitedAt := if terminal then Some ts else exitedAt metadata;
     processId := processId metadata;
     globalMarkers :=
       match truthyStr (stepKey log) with
       | None => applyMarkers log (globalMarkers metadata)
       | Some _ => globalMarkers metadata
       end;
     steps := processStepKey log steps1;
     logCaptureSteps :=
       if decide (typename log = LogsCapturedEvent) then
         Some (<[fileKey log :=
                   {| lc_fileKey := fileKey log;
                      lc_stepKeys := default [] (stepKeys log);
                      lc_pid := Some (from_option pretty "null"%string (pid log));
                      lc_externalUrl := truthyStr (externalUrl log) |}]>
                 (default ∅ (logCaptureSteps metadata)))
       else logCaptureSteps metadata |}.

(** ** Post processing *)

(** [transitions.sort((a, b) => a.time - b.time)]: a stable sort by time,
    written as insertion from the right so that of two transitions with
    the same time the one recorded first stays first. *)
Fixpoint insertByTime (t : ITransition) (l : list ITransition)
    : list ITransition :=
  match l with
  | [] => [t]
  | u :: rest =>
      if t_time t <=? t_time u then t :: l else u :: insertByTime t rest
  end.

Definition sortByTime (l : list ITransition) : list ITransition :=
  foldr insertByTime [] l.
#[global] Arguments sortByTime : simpl never.

(** The scan state of the attempt loop: the attempts pushed before the
    current one, and the object [attempt] points to ([None] for [null]).
    [attempt] always aliases the attempt pushed last. *)
Definition AttemptScan : Type := list IStepAttempt * option IStepAttempt.

Definition attemptStep (sc : AttemptScan) (t : ITransition) : AttemptScan :=
  let '(closed, attempt) := sc in
  let '(closed1, attempt1) :=
    if (match attempt with
        | None => true
        | Some a => truthyNum (a_end a)
        end) && bool_decide (t_state t = RUNNING)
    then (closed ++ option_list attempt,
          Some (mkAttempt (Some (t_time t)) None None))
    else (closed, attempt) in
  match attempt1 with
  | Some a =>
      if isBoxExitState (t_state t)
      then (closed1, Some (mkAttempt (a_start a) (Some (t_time t))
                                     (Some (t_state t))))
      else (closed1, attempt1)
  | None => (closed1, attempt1)
  end.

Definition scanAttempts (sc : AttemptScan) (ts : list ITransition)
    : AttemptScan :=
  foldl attemptStep sc ts.

Definition pushedAttempts (sc : AttemptScan) : list IStepAttempt :=
  sc.1 ++ option_list sc.2.

(** The attempt boxes pushed while scanning a transition list *)
Definition deriveAttempts (ts : list ITransition) : list IStepAttempt :=
  pushedAttempts (scanAttempts ([], None) ts).

(** The body of the post-processing loop for one step *)
Definition postProcessStep (step : IStepMetadata) : IStepMetadata :=
  let sorted := sortByTime (transitions step) in
  {| state := state step; start := start step; end_ := end_ step;
     transitions := sorted;
     attempts := attempts step ++ deriveAttempts sorted;
     markers := markers step |}.

Definition setSteps (metadata : IRunMetadataDict)
    (sts : gmap string IStepMetadata) : IRunMetadataDict :=
  {| firstLogAt := firstLogAt metadata;
     mostRecentLogAt := mostRecentLogAt metadata;
     startingProcessAt := startingProcessAt metadata;
     startedProcessAt := startedProcessAt metadata;
     startedPipelineAt := startedPipelineAt metadata;
     exitedAt := exitedAt metadata;
     processId := processId metadata;
     globalMarkers := globalMarkers metadata;
     steps := sts;
     logCaptureSteps := logCaptureSteps metadata |}.

(** The metadata after [logs.forEach], before post processing *)
Definition reduceLogs (logs : list LogEvent) : IRunMetadataDict :=
  foldl processLog EMPTY_RUN_METADATA logs.

Definition extractMetadataFromLogs (logs : list LogEvent) : IRunMetadataDict :=
  let metadata := reduceLogs logs in
  setSteps metadata (postProcessStep <$> steps metadata).

(** ** The summary fallback *)

(** Modelled from the spec: the GraphQL enumeration [StepEventStatus] is
    declared in [graphql/types], outside the sources at hand; the spec
    gives it as [enum{SUCCESS,FAILURE,SKIPPED,...}], and [OTHER] stands for
    every further member. *)
Module StepEventStatus.
Inductive t :=
  | SUCCESS
  | FAILURE
  | SKIPPED
  | OTHER (name : string).
End StepEventStatus.

(** Modelled from the spec: the type [RunFragment] and its step-statistics
    records are declared in [types/RunFragments.types], outside the sources
    at hand; the fields are those the function reads, typed as the spec's
    persisted step-stat record and run summary record give them.

    A persisted [{startTime, endTime}] pair, the shape of an attempt and of
    a marker of a step-statistics record; times are fractional seconds,
    JavaScript numbers. *)
Record TimeRange := mkRange {
  startTime : option float;
  endTime : option float;
}.

Record StepStat := mkStepStat {
  ss_stepKey : string;
  ss_status : option StepEventStatus.t;
  ss_startTime : option float;
  ss_endTime : option float;
  ss_attempts : list TimeRange;
  ss_markers : list TimeRange;
}.

Record RunFragment := mkRun {
  run_startTime : option float;
  run_endTime : option float;
  stepStats : list StepStat;
}.

(** [Math.floor] of a finite double: the greatest integer not above it,
    read off the sign, mantissa and exponent of the double. On an
    infinity or a NaN [Math.floor] returns its argument, which is no
    integer; the value here is then 0, and the statements about converted
    times are about finite ones. *)
Definition Math_floor (x : float) : Z :=
  match Prim2SF x with
  | S754_finite s m e =>
      let n := if s then Z.neg m else Z.pos m in
      if 0 <=? e then n * 2 ^ e else n `div` 2 ^ (- e)
  | _ => 0
  end.

(** Truthiness of a persisted time: [null], the two zeros and NaN are
    falsy *)
Definition truthyTime (ts : option float) : bool :=
  match ts with
  | Some x => negb (PrimFloat.is_zero x || PrimFloat.is_nan x)
  | None => false
  end.

(** [ts ? Math.floor(ts * 1000) : undefined] *)
Definition fromTimestamp (ts : option float) : option Z :=
  if truthyTime ts
  then (λ x, Math_floor (x * 1000)%float) <$> ts
  else None.

Definition stepStatusToStepState (status : option StepEventStatus.t)
    : IStepState :=
  match status with
  | Some StepEventStatus.SUCCESS => SUCCEEDED
  | Some StepEventStatus.FAILURE => FAILED
  | Some StepEventStatus.SKIPPED => SKIPPED
  | _ => UNKNOWN
  end.

(** The object stored under [stepStat.stepKey] *)
Definition stepOfStat (stepStat : StepStat) : IStepMetadata :=
  {| state := stepStatusToStepState (ss_status stepStat);
     start := fromTimestamp (ss_startTime stepStat);
     end_ := fromTimestamp (ss_endTime stepStat);
     transitions := [];
     attempts :=
       imap (λ idx attempt,
               {| a_start := fromTimestamp (startTime attempt);
                  a_end := fromTimestamp (endTime attempt);
                  a_exitState :=
                    Some (if Z.of_nat idx
                             =? Z.of_nat (length (ss_attempts stepStat)) - 1
                          then stepStatusToStepState (ss_status stepStat)
                          else RETRY_REQUESTED) |})
            (ss_attempts stepStat);
     markers :=
       imap (λ idx marker,
               {| m_key := "marker_" +:+ pretty idx;
                  m_start := fromTimestamp (startTime marker);
                  m_end := fromTimestamp (endTime marker) |})
            (ss_markers stepStat) |}.

Definition extractMetadataFromRun (run : option RunFragment)
    : IRunMetadataDict :=
  match run with
  | None => EMPTY_RUN_METADATA
  | Some run =>
      {| firstLogAt := 0; mostRecentLogAt := 0;
         startingProcessAt := None; startedProcessAt := None;
         startedPipelineAt :=
           if truthyTime (run_startTime run)
           then fromTimestamp (run_startTime run) else None;
         exitedAt :=
           if truthyTime (run_endTime run)
           then fromTimestamp (run_endTime run) else None;
         processId := None;
         globalMarkers := [];
         steps :=
           foldl (λ sts stepStat, <[ss_stepKey stepStat := stepOfStat stepStat]> sts)
                 ∅ (stepStats run);
         logCaptureSteps := None |}
  end.

(** ** Specification-side notions *)

(** The conversion to milliseconds as the specification words it: absent
    for a time that is [null] or zero, otherwise the floor of the time
    multiplied by one thousand. *)
Definition msOfSeconds (t : option float) : option Z :=
  match t with
  | None => None
  | Some x => if (x =? 0)%float then None
              else Some (Math_floor (x * 1000)%float)
  end.

(** [n] is the floor of the double [x]: the greatest integer not above
    the number [x] stands for, which is its mantissa times two to its
    exponent *)
Definition isFloorOf (n : Z) (x : float) : Prop :=
  match Prim2SF x with
  | S754_finite s m e =>
      let v := if s then Z.neg m else Z.pos m in
      n * 2 ^ Z.max 0 (- e) ≤ v * 2 ^ Z.max 0 e < (n + 1) * 2 ^ Z.max 0 (- e)
  | S754_zero _ => n = 0
  | _ => False
  end.

(** A persisted time as the run store can deliver it: absent, or a finite
    number (neither an infinity nor a NaN) whose product with 1000 is
    finite too *)
Definition finiteTime (t : option float) : Prop :=
  match t with
  | None => True
  | Some x => PrimFloat.is_finite x = true
              ∧ PrimFloat.is_finite (x * 1000)%float = true
  end.

Definition finiteRange (r : TimeRange) : Prop :=
  finiteTime (startTime r) ∧ finiteTime (endTime r).

Definition finiteStat (stat : StepStat) : Prop :=
  finiteTime (ss_startTime stat) ∧ finiteTime (ss_endTime stat)
  ∧ Forall finiteRange (ss_attempts stat)
  ∧ Forall finiteRange (ss_markers stat).

(** The names a plain JavaScript object inherits from [Object.prototype];
    under these a dictionary written as [{}] does not behave as a finite
    map. *)
Definition objectPrototypeNames : list string :=
  ["__proto__"; "constructor"; "hasOwnProperty"; "isPrototypeOf";
   "propertyIsEnumerable"; "toLocaleString"; "toString"; "valueOf";
   "__defineGetter__"; "__defineSetter__"; "__lookupGetter__";
   "__lookupSetter__"]%string.

(** An ordinary dictionary key *)
Definition ordinaryKey (k : string) : Prop := k ∉ objectPrototypeNames.

#[global] Instance ordinaryKey_dec k : Decision (ordinaryKey k).
Proof. unfold ordinaryKey. apply _. Defined.


(** [x] is the least (greatest) element of [l] *)
Definition isMinimumOf (x : Z) (l : list Z) : Prop :=
  x ∈ l ∧ ∀ y, y ∈ l → x ≤ y.

Definition isMaximumOf (x : Z) (l : list Z) : Prop :=
  x ∈ l ∧ ∀ y, y ∈ l → y ≤ x.

(** Two steps with the same state, bounds, transitions and attempts *)
Definition sameTimeline (s s' : IStepMetadata) : Prop :=
  state s' = state s ∧ start s' = start s ∧ end_ s' = end_ s
  ∧ transitions s' = transitions s ∧ attempts s' = attempts s.

(** ** Views of the reducer used in the statements *)

(** The step key of an event when it is truthy *)
Definition stepKeyOf (log : LogEvent) : option string := truthyStr (stepKey log).

(** Every file key the log-capture events carry is an ordinary key *)
Definition ordinaryFileKeys (logs : list LogEvent) : Prop :=
  Forall (λ log, typename log = LogsCapturedEvent → ordinaryKey (fileKey log))
         logs.

(** [Number.isSafeInteger]: an integer that a double holds exactly,
    together with its two neighbours *)
Definition isSafeInteger (z : Z) : Prop := Z.abs z ≤ 2 ^ 53 - 1.

(** Every step key the events carry is an ordinary key *)
Definition ordinaryStepKeys (logs : list LogEvent) : Prop :=
  Forall (λ log, ∀ key, stepKeyOf log = Some key → ordinaryKey key) logs.

(** A cache copy: an [ObjectStoreOperationEvent] whose operation is
    [CP_OBJECT] *)
Definition isCacheCopy (log : LogEvent) : bool :=
  bool_decide (typename log = ObjectStoreOperationEvent)
  && bool_decide (operationResult_op log = "CP_OBJECT"%string).

(** The transitions the state-machine rule pushes for an event *)
Definition emitted (log : LogEvent) : list ITransition :=
  let ts := timestamp log in
  match typename log with
  | ExecutionStepStartEvent => [RUNNING @ ts]
  | ExecutionStepSuccessEvent => [SUCCEEDED @ ts]
  | ExecutionStepSkippedEvent => [SKIPPED @ ts]
  | ExecutionStepFailureEvent => [FAILED @ ts]
  | ExecutionStepUpForRetryEvent => [RETRY_REQUESTED @ ts; PREPARING @ (ts + 1)]
  | ExecutionStepRestartEvent => [RUNNING @ ts]
  | _ => []
  end.

(** The event is stored under step [k]: it carries that key and is not a
    cache copy *)
Definition storesStep (k : string) (log : LogEvent) : bool :=
  bool_decide (stepKeyOf log = Some k) && negb (isCacheCopy log).

(** What one event does to the entry of step [k] in the dictionary *)
Definition stepEffect (k : string) (o : option IStepMetadata) (log : LogEvent)
    : option IStepMetadata :=
  let o1 := if isRunTerminal log
            then forceUnknown (timestamp log) <$> o else o in
  if decide (stepKeyOf log = Some k) then
    let step := default (newStep (timestamp log)) o1 in
    let step1 := setMarkers step (applyMarkers log (markers step)) in
    match applyStepEvent log step1 with
    | Some step2 => Some step2
    | None => (λ _, step1) <$> o1
    end
  else o1.

(** An attempt whose [end] is falsy, which the scan treats as open *)
Definition attemptOpen (a : IStepAttempt) : Prop := truthyNum (a_end a) = false.

Definition closeAttempt (a : IStepAttempt) (t : ITransition) : IStepAttempt :=
  mkAttempt (a_start a) (Some (t_time t)) (Some (t_state t)).

(** The order the sort establishes: not later than *)
Definition timeLe (a b : ITransition) : Prop := t_time a ≤ t_time b.

(** A transition that neither opens nor closes an attempt box *)
Definition neutralTransition (t : ITransition) : Prop :=
  t_state t = PREPARING ∨ t_state t = SKIPPED.

#[global] Instance neutralTransition_dec t : Decision (neutralTransition t).
Proof. unfold neutralTransition. apply _. Defined.





(** ** Sample events *)

(** An event of kind [ty] for step [k] at time [ts], every other field
    absent *)
Definition stepEvent (ty : EventTypename) (k : string) (ts : Z) : LogEvent :=
  {| typename := ty; timestamp := ts; stepKey := Some k;
     markerStart := None; markerEnd := None;
     operationResult_op := EmptyString; fileKey := EmptyString;
     stepKeys := None; pid := None; externalUrl := None |}.

(** An event of kind [ty] at time [ts] that belongs to no step *)
Definition runEvent (ty : EventTypename) (ts : Z) : LogEvent :=
  {| typename := ty; timestamp := ts; stepKey := None;
     markerStart := None; markerEnd := None;
     operationResult_op := EmptyString; fileKey := EmptyString;
     stepKeys := None; pid := None; externalUrl := None |}.

(** ** The legacy log-capture table and the provider *)

Definition extractLogCaptureStepsFromLegacySteps (stepKeys : list string)
    : gmap string ILogCaptureInfo :=
  foldl (λ logCaptureSteps stepKey,
           <[stepKey := {| lc_fileKey := stepKey; lc_stepKeys := [stepKey];
                           lc_pid := None; lc_externalUrl := None |}]>
             logCaptureSteps)
        ∅ stepKeys.

(** The two fields of [LogsProviderLogs] the provider reads; the type is
    declared in [LogsProvider], outside the sources at hand. *)
Record LogsProviderLogs := mkLogs {
  allNodes : list LogEvent;
  loading : bool;
}.

(** The value [RunMetadataProvider] hands to [children]: the two [useMemo]
    bodies, with [run] the value of the [RunContext]. *)
Definition RunMetadataProvider {A : Type} (logs : LogsProviderLogs)
    (run : option RunFragment) (children : IRunMetadataDict → A) : A :=
  let runMetadata := extractMetadataFromRun run in
  let metadata :=
    if loading logs then runMetadata
    else extractMetadataFromLogs (allNodes logs) in
  children metadata.

(** ** Further notions used in the statements *)

(** An attempt box read off a transition list: it starts at a [RUNNING]
    transition and, when it has an end, ends at a later exit transition
    whose state is its exit state *)
Definition attemptFrom (tr : list ITransition) (a : IStepAttempt) : Prop :=
  ∃ t0, a_start a = Some t0 ∧ RUNNING @ t0 ∈ tr
        ∧ match a_end a, a_exitState a with
          | None, None => True
          | Some t1, Some x =>
              isBoxExitState x = true ∧ x @ t1 ∈ tr ∧ t0 ≤ t1
          | _, _ => False
          end.

(** The set has a marker with this key and a falsy [end] *)
Definition hasOpenMarker (key : string) (set : list IMarker) : bool :=
  existsb (λ f, bool_decide (m_key f = key) && negb (truthyNum (m_end f))) set.

(** The event kinds [refineMarkerEvent] lets through *)
Definition isMarkerEvent (log : LogEvent) : bool :=
  match refineMarkerEvent log with Some _ => true | None => false end.

(** A step success or failure event, the two kinds that set [end] *)
Definition isFinishEvent (log : LogEvent) : bool :=
  match typename log with
  | ExecutionStepSuccessEvent | ExecutionStepFailureEvent => true
  | _ => false
  end.

(** The record [logCaptureSteps] holds for a [LogsCapturedEvent] *)
Definition logCaptureInfoOf (log : LogEvent) : ILogCaptureInfo :=
  {| lc_fileKey := fileKey log;
     lc_stepKeys := default [] (stepKeys log);
     lc_pid := Some (from_option pretty "null"%string (pid log));
     lc_externalUrl := truthyStr (externalUrl log) |}.

(** The events the step dictionary depends on: the run-terminal ones and
    those stored under a step *)
Definition affectsSteps (log : LogEvent) : bool :=
  isRunTerminal log
  || (bool_decide (is_Some (stepKeyOf log)) && negb (isCacheCopy log)).

(** A start event of step [k] *)
Definition isStartOf (k : string) (log : LogEvent) : bool :=
  bool_decide (stepKeyOf log = Some k)
  && bool_decide (typename log = ExecutionStepStartEvent).

(** A success or failure event of step [k] *)
Definition isFinishOf (k : string) (log : LogEvent) : bool :=
  bool_decide (stepKeyOf log = Some k) && isFinishEvent log.

(** A marker record after further events: the same key, and the very same
    record when its [end] was truthy *)
Definition markerKept (f f' : IMarker) : Prop :=
  m_key f' = m_key f ∧ (truthyNum (m_end f) = true → f' = f).

(** ** The reducer, step by step *)

Lemma processStepKey_lookup log sts k :
  processStepKey log sts !! k =
    if decide (stepKeyOf log = Some k) then
      let step := default (newStep (timestamp log)) (sts !! k) in
      let step1 := setMarkers step (applyMarkers log (markers step)) in
      match applyStepEvent log step1 with
      | Some step2 => Some step2
      | None => (λ _, step1) <$> (sts !! k)
      end
    else sts !! k.
Proof.
  unfold processStepKey, stepKeyOf.
  destruct (truthyStr (stepKey log)) as [k'|] eqn:Hk; last by case_decide.
  case_decide as Hd.
  - injection Hd as ->. cbn zeta.
    destruct (applyStepEvent _ _); first by rewrite lookup_insert_eq.
    destruct (sts !! k) eqn:E; rewrite ?lookup_insert_eq ?E //.
  - assert (k' ≠ k) by congruence. cbn zeta.
    destruct (applyStepEvent _ _); first by rewrite lookup_insert_ne.
    destruct (sts !! k'); by rewrite ?lookup_insert_ne.
Qed.

Lemma processLog_lookup metadata log k :
  steps (processLog metadata log) !! k = stepEffect k (steps metadata !! k) log.
Proof.
  unfold processLog, stepEffect; cbn [steps].
  rewrite processStepKey_lookup.
  destruct (isRunTerminal log); by rewrite ?lookup_fmap.
Qed.

Lemma stepEffect_ne k o log :
  stepKeyOf log ≠ Some k →
  stepEffect k o log
  = if isRunTerminal log then forceUnknown (timestamp log) <$> o else o.
Proof. intros Hk. unfold stepEffect. by rewrite decide_False. Qed.

Lemma foldl_processLog_lookup logs metadata k :
  steps (foldl processLog metadata logs) !! k
  = foldl (stepEffect k) (steps metadata !! k) logs.
Proof.
  revert metadata. induction logs as [|log logs IH]; intros metadata; first done.
  cbn [foldl]. by rewrite IH processLog_lookup.
Qed.

Lemma reduceLogs_lookup logs k :
  steps (reduceLogs logs) !! k = foldl (stepEffect k) None logs.
Proof. unfold reduceLogs. by rewrite foldl_processLog_lookup. Qed.

Lemma extractMetadataFromLogs_lookup logs k :
  steps (extractMetadataFromLogs logs) !! k
  = postProcessStep <$> foldl (stepEffect k) None logs.
Proof.
  unfold extractMetadataFromLogs, setSteps; cbn [steps].
  by rewrite lookup_fmap reduceLogs_lookup.
Qed.

(** ** The stable sort by time *)

#[global] Instance timeLe_trans : Transitive timeLe.
Proof. intros a b c; unfold timeLe; lia. Qed.

Lemma insertByTime_Permutation t l : insertByTime t l ≡ₚ t :: l.
Proof.
  induction l as [|u l IH]; cbn; first done.
  case_match; first done.
  by rewrite IH Permutation_swap.
Qed.

Lemma sortByTime_cons t l : sortByTime (t :: l) = insertByTime t (sortByTime l).
Proof. reflexivity. Qed.

Lemma sortByTime_Permutation l : sortByTime l ≡ₚ l.
Proof.
  induction l as [|t l IH]; first done.
  by rewrite sortByTime_cons insertByTime_Permutation IH.
Qed.

Lemma insertByTime_Sorted t l : Sorted timeLe l → Sorted timeLe (insertByTime t l).
Proof.
  induction 1 as [|u l Hl IH Hhd]; cbn; first by repeat constructor.
  case_match eqn:Hle.
  - constructor; [by constructor | constructor; unfold timeLe; lia].
  - constructor; first done.
    destruct Hhd as [|v l' Huv]; cbn; first (constructor; unfold timeLe; lia).
    case_match; constructor; unfold timeLe in *; lia.
Qed.

Lemma sortByTime_Sorted l : Sorted timeLe (sortByTime l).
Proof.
  induction l; [constructor | by apply insertByTime_Sorted].
Qed.

Lemma sortByTime_app l1 l2 :
  sortByTime (l1 ++ l2) = foldr insertByTime (sortByTime l2) l1.
Proof. unfold sortByTime. by rewrite foldr_app. Qed.

(** Transitions already in time order are left as they are *)
Lemma sortByTime_Sorted_id l : Sorted timeLe l → sortByTime l = l.
Proof.
  induction 1 as [|t l Hl IH Hhd]; first done.
  rewrite sortByTime_cons IH. destruct Hhd as [|u l' Htu]; cbn; first done.
  unfold timeLe in Htu. by rewrite (proj2 (Z.leb_le _ _) Htu).
Qed.

Lemma insertByTime_snoc t l x :
  t_time t ≤ t_time x → insertByTime t (l ++ [x]) = insertByTime t l ++ [x].
Proof.
  intros Htx. induction l as [|u l IH]; cbn.
  - by rewrite (proj2 (Z.leb_le _ _) Htx).
  - case_match; first done. by rewrite IH.
Qed.

(** A transition not earlier than all that were recorded sorts last *)
Lemma sortByTime_snoc l x :
  Forall (λ u, t_time u ≤ t_time x) l → sortByTime (l ++ [x]) = sortByTime l ++ [x].
Proof.
  induction 1 as [|t l Ht Hl IH]; first done.
  rewrite -app_comm_cons !sortByTime_cons IH. by apply insertByTime_snoc.
Qed.


(** ** The attempt scan *)

Lemma deriveAttempts_app l1 l2 :
  deriveAttempts (l1 ++ l2)
  = pushedAttempts (scanAttempts (scanAttempts ([], None) l1) l2).
Proof. unfold deriveAttempts, scanAttempts. by rewrite foldl_app. Qed.

Lemma scanAttempts_cons sc t l :
  scanAttempts sc (t :: l) = scanAttempts (attemptStep sc t) l.
Proof. reflexivity. Qed.

Lemma scanAttempts_app sc l1 l2 :
  scanAttempts sc (l1 ++ l2) = scanAttempts (scanAttempts sc l1) l2.
Proof. unfold scanAttempts. by rewrite foldl_app. Qed.

(** A transition that neither opens nor closes a box leaves the scan as
    it is *)
Lemma attemptStep_neutral sc t :
  t_state t ≠ RUNNING → isBoxExitState (t_state t) = false → attemptStep sc t = sc.
Proof.
  intros Hr Hx. destruct sc as [closed [a|]]; cbn.
  - rewrite bool_decide_eq_false_2 // andb_false_r Hx //.
  - rewrite bool_decide_eq_false_2 //.
Qed.

(** An exit transition writes the end and the exit state of the current
    attempt, open or not *)
Lemma attemptStep_exit closed a t :
  isBoxExitState (t_state t) = true →
  attemptStep (closed, Some a) t = (closed, Some (closeAttempt a t)).
Proof.
  intros Hx. cbn.
  assert (t_state t ≠ RUNNING) as Hr by (intros E; by rewrite E in Hx).
  rewrite bool_decide_eq_false_2 // andb_false_r Hx //.
Qed.

(** A [RUNNING] transition opens a box when none is current or the current
    one has a truthy end *)
Lemma attemptStep_running_opens closed attempt t :
  t_state t = RUNNING →
  (∀ a, attempt = Some a → truthyNum (a_end a) = true) →
  attemptStep (closed, attempt) t
  = (closed ++ option_list attempt, Some (mkAttempt (Some (t_time t)) None None)).
Proof.
  intros Hr Ha. cbn. rewrite Hr. cbn.
  destruct attempt as [a|]; last done. by rewrite (Ha a).
Qed.

(** A [RUNNING] transition while the current attempt is open changes nothing *)
Lemma attemptStep_running_open closed a t :
  t_state t = RUNNING → attemptOpen a →
  attemptStep (closed, Some a) t = (closed, Some a).
Proof. intros Hr Ha. cbn. by rewrite Ha Hr. Qed.

(** ** Scenario: a start followed by a success *)

(** C4, as stated, fails: the step made on the first event of [stepA]
    begins with a [PREPARING] transition at that event's time, so the
    transitions are not just [RUNNING@0, SUCCEEDED@10]. *)
Lemma scenario_start_success_not_two_transitions :
  ¬ ∃ s,
      steps (extractMetadataFromLogs
               [stepEvent ExecutionStepStartEvent "stepA" 0;
                stepEvent ExecutionStepSuccessEvent "stepA" 10]) !! "stepA"
      = Some s
      ∧ state s = SUCCEEDED ∧ start s = Some 0 ∧ end_ s = Some 10
      ∧ transitions s = [RUNNING @ 0; SUCCEEDED @ 10]
      ∧ attempts s = [mkAttempt (Some 0) (Some 10) (Some SUCCEEDED)].
Proof.
  intros (s & Hs & _ & _ & _ & Htr & _).
  rewrite extractMetadataFromLogs_lookup in Hs.
  vm_compute in Hs. injection Hs as <-. discriminate Htr.
Qed.

(** C4 (amended): for a step-start event of [stepA] at time 0 followed by
    a step-success event of [stepA] at time 10, the model holds exactly one
    step, [stepA], with state [SUCCEEDED], start 0, end 10, transitions
    [PREPARING@0, RUNNING@0, SUCCEEDED@10], the single attempt
    [{start:0, end:10, exitState:SUCCEEDED}] and no markers. *)
Theorem scenario_start_success e1 e2 :
  typename e1 = ExecutionStepStartEvent → stepKey e1 = Some "stepA"%string →
  timestamp e1 = 0 →
  typename e2 = ExecutionStepSuccessEvent → stepKey e2 = Some "stepA"%string →
  timestamp e2 = 10 →
  steps (extractMetadataFromLogs [e1; e2])
  = {[ "stepA"%string :=
         {| state := SUCCEEDED; start := Some 0; end_ := Some 10;
            transitions := [PREPARING @ 0; RUNNING @ 0; SUCCEEDED @ 10];
            attempts := [mkAttempt (Some 0) (Some 10) (Some SUCCEEDED)];
            markers := [] |} ]}.
Proof.
  intros Hty1 Hk1 Hts1 Hty2 Hk2 Hts2.
  apply map_eq; intros k. rewrite extractMetadataFromLogs_lookup.
  destruct e1, e2; cbn in Hty1, Hk1, Hts1, Hty2, Hk2, Hts2; subst.
  destruct (decide (k = "stepA"%string)) as [->|Hk].
  - by rewrite lookup_singleton_eq.
  - rewrite lookup_singleton_ne //. cbn.
    rewrite !stepEffect_ne //; intros [= <-]; done.
Qed.

Lemma scenario_start_success_witness :
  steps (extractMetadataFromLogs
           [stepEvent ExecutionStepStartEvent "stepA" 0;
            stepEvent ExecutionStepSuccessEvent "stepA" 10])
  = {[ "stepA"%string :=
         {| state := SUCCEEDED; start := Some 0; end_ := Some 10;
            transitions := [PREPARING @ 0; RUNNING @ 0; SUCCEEDED @ 10];
            attempts := [mkAttempt (Some 0) (Some 10) (Some SUCCEEDED)];
            markers := [] |} ]}.
Proof. apply scenario_start_success; reflexivity. Defined.

(** ** Attempts of the model are derived from its transitions *)

Lemma scanAttempts_neutral sc l :
  Forall neutralTransition l → scanAttempts sc l = sc.
Proof.
  induction 1 as [|t l Ht Hl IH]; first done.
  cbn. rewrite attemptStep_neutral; [exact IH | destruct Ht as [Ht | Ht]..].
  all: by rewrite Ht.
Qed.

Lemma upsertState_attempts step ts st : attempts (upsertState step ts st) = [].
Proof. reflexivity. Qed.

Lemma applyStepEvent_attempts log step step' :
  applyStepEvent log step = Some step' → attempts step = [] → attempts step' = [].
Proof.
  unfold applyStepEvent. intros H Hs.
  destruct (typename log); try case_decide; by simplify_eq.
Qed.

Lemma stepEffect_attempts k o log :
  (∀ s, o = Some s → attempts s = []) →
  ∀ s, stepEffect k o log = Some s → attempts s = [].
Proof.
  intros Ho.
  assert (∀ s, (if isRunTerminal log then forceUnknown (timestamp log) <$> o
                else o) = Some s → attempts s = []) as Ho1.
  { destruct (isRunTerminal log); last done.
    intros s Hs. apply fmap_Some in Hs as (s0 & Hs0 & ->).
    unfold forceUnknown. case_decide; [done | by apply Ho]. }
  unfold stepEffect. cbn zeta. case_decide; last done.
  set (o1 := if isRunTerminal log then _ else _) in *.
  intros s.
  assert (attempts (default (newStep (timestamp log)) o1) = []) as Hd.
  { destruct o1; cbn; [by apply Ho1 | done]. }
  destruct (applyStepEvent _ _) eqn:E.
  - intros [= <-]. by eapply applyStepEvent_attempts.
  - intros Hs. apply fmap_Some in Hs as (s0 & Hs0 & ->). done.
Qed.

Lemma reduceLogs_attempts logs k s :
  steps (reduceLogs logs) !! k = Some s → attempts s = [].
Proof.
  rewrite reduceLogs_lookup. revert s.
  induction logs as [|log logs IH] using rev_ind; first done.
  rewrite foldl_app. cbn. by apply stepEffect_attempts.
Qed.

(** Every step of the model is the post-processed step of the fold *)
Lemma extractMetadataFromLogs_step logs k s :
  steps (extractMetadataFromLogs logs) !! k = Some s ↔
  ∃ raw, steps (reduceLogs logs) !! k = Some raw
         ∧ s = {| state := state raw; start := start raw; end_ := end_ raw;
                  transitions := sortByTime (transitions raw);
                  attempts := deriveAttempts (sortByTime (transitions raw));
                  markers := markers raw |}.
Proof.
  unfold extractMetadataFromLogs, setSteps; cbn [steps].
  rewrite lookup_fmap fmap_Some. split.
  - intros (raw & Hraw & ->). exists raw. split; first done.
    unfold postProcessStep. by rewrite (reduceLogs_attempts _ _ _ Hraw).
  - intros (raw & Hraw & ->). exists raw. split; first done.
    unfold postProcessStep. by rewrite (reduceLogs_attempts _ _ _ Hraw).
Qed.

Lemma extractMetadataFromLogs_attempts logs k s :
  steps (extractMetadataFromLogs logs) !! k = Some s →
  attempts s = deriveAttempts (transitions s).
Proof. rewrite extractMetadataFromLogs_step. by intros (raw & _ & ->). Qed.

(** ** An exit transition overwrites a closed attempt *)

(** C9: in attempt derivation a transition into an exit state
    ([RETRY_REQUESTED], [SUCCEEDED], [FAILED], [UNKNOWN]) writes the end
    and the exit state of the attempt opened last, also when that attempt
    is closed already. So a step of the model whose sorted transitions are
    [RUNNING@t0], then an exit transition at [t1], then an exit transition
    at [t2] (as when [t0 < t1 < t2]), with only [PREPARING] and [SKIPPED]
    transitions around them, has exactly one attempt, which starts at
    [t0], ends at [t2] and exits with the state of the transition at
    [t2]. *)
Theorem exit_transition_overwrites_closed_attempt :
  (∀ closed a t,
     isBoxExitState (t_state t) = true →
     attemptStep (closed, Some a) t = (closed, Some (closeAttempt a t)))
  ∧ (∀ logs k s x y t0 t1 t2 n0 n1 n2 n3,
       steps (extractMetadataFromLogs logs) !! k = Some s →
       isBoxExitState x = true → isBoxExitState y = true →
       Forall neutralTransition (n0 ++ n1 ++ n2 ++ n3) →
       transitions s
       = n0 ++ RUNNING @ t0 :: n1 ++ x @ t1 :: n2 ++ y @ t2 :: n3 →
       attempts s = [mkAttempt (Some t0) (Some t2) (Some y)]).
Proof.
  split; first exact attemptStep_exit.
  intros logs k s x y t0 t1 t2 n0 n1 n2 n3 Hs Hx Hy Hn Htr.
  rewrite (extractMetadataFromLogs_attempts _ _ _ Hs) Htr.
  rewrite !Forall_app in Hn. destruct Hn as (H0 & H1 & H2 & H3).
  unfold deriveAttempts.
  rewrite scanAttempts_app (scanAttempts_neutral _ n0) // scanAttempts_cons.
  rewrite attemptStep_running_opens //.
  rewrite scanAttempts_app (scanAttempts_neutral _ n1) // scanAttempts_cons.
  rewrite attemptStep_exit //.
  rewrite scanAttempts_app (scanAttempts_neutral _ n2) // scanAttempts_cons.
  rewrite attemptStep_exit // scanAttempts_neutral //.
Qed.

Lemma exit_transition_overwrites_closed_attempt_witness :
  attempts
    (default (newStep 0)
       (steps (extractMetadataFromLogs
                 [stepEvent ExecutionStepStartEvent "stepA" 1;
                  stepEvent ExecutionStepSuccessEvent "stepA" 5;
                  stepEvent ExecutionStepFailureEvent "stepA" 9]) !! "stepA"))
  = [mkAttempt (Some 1) (Some 9) (Some FAILED)].
Proof.
  destruct (steps _ !! _) as [s|] eqn:Hs.
  - cbn. apply (proj2 exit_transition_overwrites_closed_attempt
           _ _ s SUCCEEDED FAILED 1 5 9 [PREPARING @ 1] [] [] [] Hs).
    + reflexivity.
    + reflexivity.
    + repeat constructor.
    + rewrite extractMetadataFromLogs_lookup in Hs. vm_compute in Hs.
      by injection Hs as <-.
  - rewrite extractMetadataFromLogs_lookup in Hs. vm_compute in Hs. discriminate.
Defined.

(** C5, as stated, fails: after a start at 0 and a retry at 5, a failure
    at 12 that comes with no restart in between takes over the attempt
    the retry had closed, so no attempt of the model has the exit state
    [RETRY_REQUESTED] although the retry found an open attempt. *)
Lemma retry_close_overwritten_without_restart :
  ∃ s,
    steps (extractMetadataFromLogs
             [stepEvent ExecutionStepStartEvent "stepA" 0;
              stepEvent ExecutionStepUpForRetryEvent "stepA" 5;
              stepEvent ExecutionStepFailureEvent "stepA" 12]) !! "stepA" = Some s
    ∧ transitions s = [PREPARING @ 0; RUNNING @ 0; RETRY_REQUESTED @ 5;
                       PREPARING @ 6; FAILED @ 12]
    ∧ attempts s = [mkAttempt (Some 0) (Some 12) (Some FAILED)]
    ∧ ¬ ∃ a, a ∈ attempts s ∧ a_exitState a = Some RETRY_REQUESTED.
Proof.
  eexists. split; first by rewrite extractMetadataFromLogs_lookup.
  cbn. do 2 (split; first done).
  intros (a & Hin & Hexit). apply list_elem_of_singleton in Hin as ->.
  discriminate Hexit.
Qed.

(** The spec's retry scenario: a start, a retry, a restart and a failure *)
Lemma scenario_retry_restart_failure :
  steps (extractMetadataFromLogs
           [stepEvent ExecutionStepStartEvent "stepA" 0;
            stepEvent ExecutionStepUpForRetryEvent "stepA" 5;
            stepEvent ExecutionStepRestartEvent "stepA" 8;
            stepEvent ExecutionStepFailureEvent "stepA" 12]) !! "stepA"
  = Some {| state := FAILED; start := Some 0; end_ := Some 12;
            transitions := [PREPARING @ 0; RUNNING @ 0; RETRY_REQUESTED @ 5;
                            PREPARING @ 6; RUNNING @ 8; FAILED @ 12];
            attempts := [mkAttempt (Some 0) (Some 5) (Some RETRY_REQUESTED);
                         mkAttempt (Some 8) (Some 12) (Some FAILED)];
            markers := [] |}.
Proof. rewrite extractMetadataFromLogs_lookup. by vm_compute. Qed.

(** ** Retry synthesis *)

Lemma setMarkers_id step : setMarkers step (markers step) = step.
Proof. by destruct step. Qed.

Lemma stepEffect_retry k o log :
  typename log = ExecutionStepUpForRetryEvent → stepKeyOf log = Some k →
  stepEffect k o log
  = Some (upsertState
            (upsertState (default (newStep (timestamp log)) o)
                         (timestamp log) RETRY_REQUESTED)
            (timestamp log + 1) PREPARING).
Proof.
  intros Hty Hk. unfold stepEffect.
  rewrite decide_True //.
  unfold isRunTerminal, applyStepEvent, applyMarkers, refineMarkerEvent.
  rewrite Hty. cbn zeta. by rewrite setMarkers_id.
Qed.

Lemma applyStepEvent_transitions log step step' :
  applyStepEvent log step = Some step' →
  transitions step' = transitions step ++ emitted log.
Proof.
  unfold applyStepEvent, emitted. intros H.
  destruct (typename log); try case_decide; simplify_eq; cbn;
    by rewrite -?app_assoc ?app_nil_r.
Qed.

(** An event only appends to the transitions of a step that exists *)
Lemma stepEffect_grows k raw log :
  ∃ raw' more, stepEffect k (Some raw) log = Some raw'
               ∧ transitions raw' = transitions raw ++ more.
Proof.
  unfold stepEffect.
  assert (∃ raw1 more1,
            (if isRunTerminal log
             then forceUnknown (timestamp log) <$> Some raw else Some raw)
            = Some raw1
            ∧ transitions raw1 = transitions raw ++ more1)
    as (raw1 & more1 & -> & Htr1).
  { destruct (isRunTerminal log); cbn.
    - unfold forceUnknown. case_decide.
      + by eexists _, [_].
      + exists raw, []. by rewrite app_nil_r.
    - exists raw, []. by rewrite app_nil_r. }
  case_decide; last by eauto.
  cbv zeta. change (default _ (Some raw1)) with raw1.
  destruct (applyStepEvent _ _) as [step2|] eqn:E.
  - exists step2, (more1 ++ emitted log). split; first done.
    by rewrite (applyStepEvent_transitions _ _ _ E) /= Htr1 app_assoc.
  - cbn. eauto.
Qed.

Lemma foldl_stepEffect_grows k logs raw :
  ∃ raw' more, foldl (stepEffect k) (Some raw) logs = Some raw'
               ∧ transitions raw' = transitions raw ++ more.
Proof.
  revert raw. induction logs as [|log logs IH]; intros raw.
  { exists raw, []. by rewrite app_nil_r. }
  cbn [foldl].
  destruct (stepEffect_grows k raw log) as (raw1 & more1 & -> & Htr1).
  destruct (IH raw1) as (raw' & more & -> & Htr).
  exists raw', (more1 ++ more). split; first done.
  by rewrite Htr Htr1 app_assoc.
Qed.

(** While no attempt has been pushed the scan has pushed nothing *)
Lemma scanAttempts_None l closed :
  scanAttempts ([], None) l = (closed, None) → closed = [].
Proof.
  assert (∀ sc, (sc.2 = None → sc.1 = []) →
                (scanAttempts sc l).2 = None → (scanAttempts sc l).1 = []) as H.
  { induction l as [|t l IH]; intros sc Hsc; first done.
    rewrite scanAttempts_cons. apply IH.
    destruct sc as [cl [a|]]; cbn in *.
    - repeat case_match; cbn; intros; by simplify_eq.
    - rewrite (Hsc eq_refl). repeat case_match; cbn; intros; by simplify_eq. }
  intros Hl. specialize (H ([], None) (λ _, eq_refl)).
  rewrite Hl in H. by apply H.
Qed.

(** The scan state behind an attempt list that ends with [a] *)
Lemma deriveAttempts_snoc_inv l closed a :
  deriveAttempts l = closed ++ [a] → scanAttempts ([], None) l = (closed, Some a).
Proof.
  unfold deriveAttempts, pushedAttempts.
  destruct (scanAttempts ([], None) l) as [cl [a'|]] eqn:E; cbn.
  - intros [-> ->]%app_inj_tail. done.
  - rewrite (scanAttempts_None _ _ E). cbn. by destruct closed.
Qed.

(** The attempts pushed before the current one are never changed *)
Lemma scanAttempts_closed_prefix sc l :
  ∃ more, (scanAttempts sc l).1 = sc.1 ++ more.
Proof.
  revert sc. induction l as [|t l IH]; intros sc.
  { exists []. by rewrite app_nil_r. }
  rewrite scanAttempts_cons. destruct (IH (attemptStep sc t)) as (more & ->).
  assert (∃ more1, (attemptStep sc t).1 = sc.1 ++ more1) as (more1 & ->).
  { destruct sc as [closed [a|]]; cbn;
      repeat case_match; cbn; simplify_eq; eauto using app_nil_r. }
  exists (more1 ++ more). by rewrite app_assoc.
Qed.

Lemma scanAttempts_retry closed a T :
  scanAttempts (closed, Some a) [RETRY_REQUESTED @ T; PREPARING @ (T + 1)]
  = (closed, Some (mkAttempt (a_start a) (Some T) (Some RETRY_REQUESTED))).
Proof.
  rewrite scanAttempts_cons attemptStep_exit // scanAttempts_neutral //.
  repeat constructor.
Qed.

(** Transitions that are no exits leave the attempts pushed so far as
    they are *)
Lemma attemptStep_no_exit sc t :
  isBoxExitState (t_state t) = false →
  ∃ more, pushedAttempts (attemptStep sc t) = pushedAttempts sc ++ more.
Proof.
  intros Hexit. unfold pushedAttempts.
  destruct sc as [closed [a|]]; cbn; rewrite Hexit;
    repeat case_match; simplify_eq; cbn.
  - by eexists.
  - exists []. by rewrite !app_nil_r.
  - by eexists.
  - exists []. by rewrite !app_nil_r.
Qed.

Lemma scanAttempts_no_exit sc l :
  Forall (λ t, isBoxExitState (t_state t) = false) l →
  ∃ more, pushedAttempts (scanAttempts sc l) = pushedAttempts sc ++ more.
Proof.
  intros Hl. revert sc. induction Hl as [|t l Ht Hl IH]; intros sc.
  { exists []. by rewrite app_nil_r. }
  rewrite scanAttempts_cons. destruct (IH (attemptStep sc t)) as (more & ->).
  destruct (attemptStep_no_exit sc t Ht) as (more1 & ->).
  exists (more1 ++ more). by rewrite app_assoc.
Qed.

(** C5 (amended): a queued-for-retry event of step [k] at time [T] records
    exactly two transitions for that step, [RETRY_REQUESTED] at [T] and
    then [PREPARING] at [T+1] (after the step's earlier transitions, or
    after the initial transition of a step the event creates), and
    records nothing for any other step; in the model of every event
    sequence that contains the event, the step has both transitions. In
    attempt derivation the [RETRY_REQUESTED] transition closes the
    attempt that is current when the scan reaches it, at [T] with exit
    state [RETRY_REQUESTED], and the attempt keeps that close in the
    attempts of the model when no exit transition follows in the sorted
    transitions, or when [T] is not 0 and a [RUNNING] transition follows
    before any later exit transition. Step keys are ordinary property
    names and [T] is a safe integer. *)
Theorem retry_synthesis log k :
  typename log = ExecutionStepUpForRetryEvent → stepKeyOf log = Some k →
  ordinaryKey k → isSafeInteger (timestamp log) →
  let T := timestamp log in
  (∀ metadata,
     (∃ s', steps (processLog metadata log) !! k = Some s'
            ∧ transitions s'
              = transitions (default (newStep T) (steps metadata !! k))
                ++ [RETRY_REQUESTED @ T; PREPARING @ (T + 1)])
     ∧ ∀ k', k' ≠ k →
         steps (processLog metadata log) !! k' = steps metadata !! k')
  ∧ (∀ logs1 logs2,
       ordinaryStepKeys (logs1 ++ logs2) →
       ∃ s, steps (extractMetadataFromLogs (logs1 ++ log :: logs2)) !! k = Some s
            ∧ RETRY_REQUESTED @ T ∈ transitions s
            ∧ PREPARING @ (T + 1) ∈ transitions s)
  ∧ (∀ logs s pre post closed a,
       steps (extractMetadataFromLogs logs) !! k = Some s →
       transitions s = pre ++ RETRY_REQUESTED @ T :: post →
       scanAttempts ([], None) pre = (closed, Some a) →
       Forall (λ t, isBoxExitState (t_state t) = false) post
       ∨ (T ≠ 0 ∧ ∃ quiet t rest,
            Forall neutralTransition quiet
            ∧ post = quiet ++ RUNNING @ t :: rest) →
       attempts s !! length closed
       = Some (mkAttempt (a_start a) (Some T) (Some RETRY_REQUESTED))).
Proof.
  intros Hty Hk _ _ T. split; [|split].
  - intros metadata. split.
    + rewrite processLog_lookup stepEffect_retry //.
      eexists; split; first done. cbn. by rewrite -app_assoc.
    + intros k' Hk'. rewrite processLog_lookup stepEffect_ne.
      * unfold isRunTerminal. by rewrite Hty.
      * rewrite Hk. congruence.
  - intros logs1 logs2 _.
    destruct (foldl_stepEffect_grows k logs2
                (upsertState
                   (upsertState
                      (default (newStep T) (foldl (stepEffect k) None logs1))
                      T RETRY_REQUESTED)
                   (T + 1) PREPARING)) as (raw & more & Hraw & Htr).
    eexists. split.
    { apply extractMetadataFromLogs_step. exists raw. split; last done.
      rewrite reduceLogs_lookup foldl_app. cbn [foldl].
      by rewrite stepEffect_retry. }
    cbn [transitions]. rewrite !sortByTime_Permutation Htr. cbn.
    rewrite !elem_of_app !elem_of_cons. split; auto 10.
  - intros logs s pre post closed a Hs Htr Hpre Hpost.
    rewrite (extractMetadataFromLogs_attempts _ _ _ Hs) Htr.
    unfold deriveAttempts.
    rewrite scanAttempts_app Hpre scanAttempts_cons attemptStep_exit //.
    destruct Hpost as [Hquiet | (HT & quiet & t & rest & Hquiet & ->)].
    + destruct (scanAttempts_no_exit
                  (closed, Some (closeAttempt a (RETRY_REQUESTED @ T))) post Hquiet)
        as (more & ->).
      unfold pushedAttempts. cbn. rewrite -app_assoc.
      by apply list_lookup_middle.
    + rewrite scanAttempts_app (scanAttempts_neutral _ quiet) //.
      rewrite scanAttempts_cons attemptStep_running_opens //;
        last by (intros ? [= <-]; cbn; apply negb_true_iff, Z.eqb_neq).
      destruct (scanAttempts_closed_prefix
                  (closed ++ option_list (Some (closeAttempt a (RETRY_REQUESTED @ T))),
                   Some (mkAttempt (Some (t_time (RUNNING @ t))) None None))
                  rest) as (more & Hmore).
      unfold pushedAttempts. rewrite Hmore. cbn.
      rewrite -!app_assoc /=. by apply list_lookup_middle.
Qed.

Lemma retry_synthesis_witness :
  ∃ s,
    steps (extractMetadataFromLogs
             [stepEvent ExecutionStepStartEvent "stepA" 0;
              stepEvent ExecutionStepUpForRetryEvent "stepA" 5;
              stepEvent ExecutionStepRestartEvent "stepA" 8;
              stepEvent ExecutionStepFailureEvent "stepA" 12]) !! "stepA" = Some s
    ∧ attempts s !! 0%nat
      = Some (mkAttempt (Some 0) (Some 5) (Some RETRY_REQUESTED)).
Proof.
  eexists. split; first by rewrite extractMetadataFromLogs_lookup.
  assert (ordinaryKey "stepA") as Hkey by by apply (bool_decide_unpack _).
  assert (isSafeInteger 5) as Hsafe by (unfold isSafeInteger; lia).
  apply (proj2 (proj2 (retry_synthesis
                         (stepEvent ExecutionStepUpForRetryEvent "stepA" 5)
                         "stepA" eq_refl eq_refl Hkey Hsafe))
           [stepEvent ExecutionStepStartEvent "stepA" 0;
            stepEvent ExecutionStepUpForRetryEvent "stepA" 5;
            stepEvent ExecutionStepRestartEvent "stepA" 8;
            stepEvent ExecutionStepFailureEvent "stepA" 12]
           _ [PREPARING @ 0; RUNNING @ 0]
           [PREPARING @ 6; RUNNING @ 8; FAILED @ 12]
           [] (mkAttempt (Some 0) None None)).
  - by rewrite extractMetadataFromLogs_lookup.
  - reflexivity.
  - reflexivity.
  - right. split; first done.
    exists [PREPARING @ 6], 8, [FAILED @ 12]. split; last done.
    repeat constructor.
Defined.

(** ** First and most recent log times *)

Lemma extractMetadataFromLogs_firstLogAt logs :
  firstLogAt (extractMetadataFromLogs logs) = firstLogAt (reduceLogs logs).
Proof. reflexivity. Qed.

Lemma extractMetadataFromLogs_mostRecentLogAt logs :
  mostRecentLogAt (extractMetadataFromLogs logs)
  = mostRecentLogAt (reduceLogs logs).
Proof. reflexivity. Qed.

Lemma reduceLogs_snoc logs log :
  reduceLogs (logs ++ [log]) = processLog (reduceLogs logs) log.
Proof. unfold reduceLogs. by rewrite foldl_app. Qed.

(** C6, as stated, fails: [firstLogAt] uses 0 for "not set yet", so after
    an event at time 0 the next event's time replaces it. *)
Lemma firstLogAt_not_minimum_after_zero :
  let logs := [runEvent OtherEvent 0; runEvent OtherEvent 5] in
  ¬ (isMinimumOf (firstLogAt (extractMetadataFromLogs logs)) (timestamp <$> logs)
     ∧ isMaximumOf (mostRecentLogAt (extractMetadataFromLogs logs))
                   (timestamp <$> logs)).
Proof.
  intros logs [[_ Hmin] _].
  specialize (Hmin 0). vm_compute in Hmin. apply Hmin; last done.
  apply list_elem_of_here.
Qed.

(** C6 (amended): after the live-log reducer processes a non-empty event
    sequence whose timestamps are all positive, [firstLogAt] is the
    minimum and [mostRecentLogAt] the maximum timestamp over all processed
    events, whatever their kind (events that emit no transition
    included). *)
Theorem firstLogAt_mostRecentLogAt_min_max logs :
  logs ≠ [] → Forall (λ log, 0 < timestamp log) logs →
  isMinimumOf (firstLogAt (extractMetadataFromLogs logs)) (timestamp <$> logs)
  ∧ isMaximumOf (mostRecentLogAt (extractMetadataFromLogs logs))
                (timestamp <$> logs).
Proof.
  rewrite extractMetadataFromLogs_firstLogAt extractMetadataFromLogs_mostRecentLogAt.
  induction logs as [|log logs IH] using rev_ind; first done.
  intros _ [Hpos Hlog]%Forall_app. apply Forall_inv in Hlog.
  cbn beta in Hlog.
  rewrite reduceLogs_snoc fmap_app. cbn [processLog firstLogAt mostRecentLogAt].
  destruct logs as [|log0 logs0].
  { cbn. unfold isMinimumOf, isMaximumOf.
    rewrite Z.max_r; last lia.
    setoid_rewrite list_elem_of_singleton.
    repeat split; try done; intros y ->; lia. }
  destruct IH as [[Hin Hmin] [Hin' Hmax]]; [done..|].
  set (ts := timestamp <$> log0 :: logs0) in *.
  assert (0 < firstLogAt (reduceLogs (log0 :: logs0))) as Hnz.
  { apply list_elem_of_fmap in Hin as (e & -> & He).
    by eapply (proj1 (Forall_forall _ _) Hpos). }
  rewrite (proj2 (Z.eqb_neq _ 0)); last lia. cbn [negb fmap list_fmap].
  unfold isMinimumOf, isMaximumOf.
  setoid_rewrite elem_of_app. setoid_rewrite list_elem_of_singleton.
  split; split.
  - destruct (Z.min_spec (firstLogAt (reduceLogs (log0 :: logs0)))
                         (timestamp log)) as [[_ ->] | [_ ->]]; auto.
  - intros y [Hy | ->]; [specialize (Hmin y Hy)|]; lia.
  - destruct (Z.max_spec (mostRecentLogAt (reduceLogs (log0 :: logs0)))
                         (timestamp log)) as [[_ ->] | [_ ->]]; auto.
  - intros y [Hy | ->]; [specialize (Hmax y Hy)|]; lia.
Qed.

Lemma firstLogAt_mostRecentLogAt_min_max_witness :
  let logs := [stepEvent ObjectStoreOperationEvent "y" 7;
               runEvent OtherEvent 3; runEvent RunSuccessEvent 9] in
  isMinimumOf (firstLogAt (extractMetadataFromLogs logs)) (timestamp <$> logs)
  ∧ isMaximumOf (mostRecentLogAt (extractMetadataFromLogs logs))
                (timestamp <$> logs).
Proof.
  apply firstLogAt_mostRecentLogAt_min_max.
  - discriminate.
  - repeat constructor.
Defined.

(** ** Cache copies are discarded *)

Lemma applyMarkers_not_marker log set :
  refineMarkerEvent log = None → applyMarkers log set = set.
Proof. unfold applyMarkers. by intros ->. Qed.

Lemma stepEffect_cacheCopy k o log : isCacheCopy log = true → stepEffect k o log = o.
Proof.
  unfold isCacheCopy. intros [Hty Hop]%andb_prop.
  apply bool_decide_eq_true in Hty, Hop.
  unfold stepEffect, isRunTerminal. rewrite Hty. case_decide; last done.
  rewrite applyMarkers_not_marker; last by rewrite /refineMarkerEvent Hty.
  unfold applyStepEvent. rewrite Hty decide_True // setMarkers_id.
  by destruct o.
Qed.

(** C8: a cache copy (an [ObjectStoreOperationEvent] whose operation is
    [CP_OBJECT]), whatever step key it carries, leaves the step dictionary
    as it is when it is processed, and the model of an event sequence that
    contains it has the same steps (the same transitions, [start], [end]
    and [state] for the step it names and for every other step) as the
    model of the sequence without it. *)
Theorem cache_copy_discard log :
  isCacheCopy log = true →
  (∀ metadata, steps (processLog metadata log) = steps metadata)
  ∧ ∀ logs1 logs2,
      steps (extractMetadataFromLogs (logs1 ++ log :: logs2))
      = steps (extractMetadataFromLogs (logs1 ++ logs2)).
Proof.
  intros Hcp. split.
  - intros metadata. apply map_eq; intros k.
    by rewrite processLog_lookup stepEffect_cacheCopy.
  - intros logs1 logs2. apply map_eq; intros k.
    rewrite !extractMetadataFromLogs_lookup !foldl_app. cbn [foldl].
    by rewrite stepEffect_cacheCopy.
Qed.

Lemma cache_copy_discard_witness :
  let log := {| typename := ObjectStoreOperationEvent; timestamp := 4;
                stepKey := Some "y"%string;
                markerStart := None; markerEnd := None;
                operationResult_op := "CP_OBJECT"; fileKey := EmptyString;
                stepKeys := None; pid := None; externalUrl := None |} in
  steps (extractMetadataFromLogs
           ([stepEvent ExecutionStepStartEvent "y" 1] ++ log
            :: [stepEvent ExecutionStepSuccessEvent "y" 8]))
  = steps (extractMetadataFromLogs
             ([stepEvent ExecutionStepStartEvent "y" 1]
              ++ [stepEvent ExecutionStepSuccessEvent "y" 8])).
Proof.
  intros log. apply (proj2 (cache_copy_discard log eq_refl)).
Defined.

(** ** The summary fallback *)

Lemma foldl_insert_stat_lookup stats (sts : gmap string IStepMetadata) k :
  Forall (λ st, ss_stepKey st ≠ k) stats →
  foldl (λ sts stepStat, <[ss_stepKey stepStat := stepOfStat stepStat]> sts)
        sts stats !! k = sts !! k.
Proof.
  revert sts. induction stats as [|st stats IH]; intros sts Hne; first done.
  apply Forall_cons in Hne as [Hst Hne]. cbn [foldl].
  by rewrite IH // lookup_insert_ne.
Qed.

(** The record that is last under its step key is the one the model keeps *)
Lemma extractMetadataFromRun_lookup run pre stat post :
  stepStats run = pre ++ stat :: post →
  Forall (λ st, ss_stepKey st ≠ ss_stepKey stat) post →
  steps (extractMetadataFromRun (Some run)) !! ss_stepKey stat
  = Some (stepOfStat stat).
Proof.
  intros Hstats Hpost. cbn [extractMetadataFromRun steps].
  rewrite Hstats foldl_app. cbn [foldl].
  by rewrite foldl_insert_stat_lookup // lookup_insert_eq.
Qed.

Lemma is_finite_Prim2SF x :
  PrimFloat.is_finite x = true →
  match Prim2SF x with
  | S754_nan | S754_infinity _ => False
  | _ => True
  end.
Proof.
  unfold PrimFloat.is_finite, PrimFloat.is_nan, PrimFloat.is_infinity.
  rewrite !eqb_spec abs_spec.
  destruct (Prim2SF x) as [s|s| |s m e]; try done.
  by destruct s; vm_compute.
Qed.

(** [Math_floor] is the floor on finite doubles *)
Lemma Math_floor_isFloorOf x :
  PrimFloat.is_finite x = true → isFloorOf (Math_floor x) x.
Proof.
  intros Hfin%is_finite_Prim2SF. unfold isFloorOf, Math_floor.
  destruct (Prim2SF x) as [s|s| |s m e]; try done.
  cbv zeta. set (v := if s then Z.neg m else Z.pos m).
  destruct (0 <=? e) eqn:He.
  - apply Z.leb_le in He. rewrite Z.max_l; last lia. rewrite Z.max_r //.
    cbn. lia.
  - apply Z.leb_gt in He. rewrite Z.max_r; last lia. rewrite Z.max_l; last lia.
    assert (0 < 2 ^ (- e)) as Hp by (apply Z.pow_pos_nonneg; lia).
    rewrite Z.pow_0_r Z.mul_1_r. split.
    + rewrite Z.mul_comm. by apply Z.mul_div_le.
    + rewrite Z.mul_comm. by apply Z.mul_succ_div_gt.
Qed.

Lemma fromTimestamp_floor t n :
  finiteTime t → fromTimestamp t = Some n →
  ∃ x, t = Some x ∧ (x =? 0)%float = false ∧ isFloorOf n (x * 1000)%float.
Proof.
  unfold fromTimestamp. destruct t as [x|]; last done.
  intros [_ Hfin]. destruct (truthyTime (Some x)) eqn:Htruthy; last done.
  intros [= <-]. exists x. split; first done.
  split; last by apply Math_floor_isFloorOf.
  cbn in Htruthy. apply negb_true_iff, orb_false_elim in Htruthy as [Hz _].
  exact Hz.
Qed.

Lemma fromTimestamp_msOfSeconds t :
  finiteTime t → fromTimestamp t = msOfSeconds t.
Proof.
  unfold fromTimestamp, msOfSeconds, truthyTime, finiteTime.
  destruct t as [x|]; last done. intros [Hfin _].
  unfold PrimFloat.is_finite in Hfin.
  apply negb_true_iff, orb_false_elim in Hfin as [-> _].
  rewrite orb_false_r.
  change (PrimFloat.is_zero x) with (x =? 0)%float.
  by destruct (x =? 0)%float.
Qed.

(** C7: for every run with persisted step statistics, the summary fallback
    turns each record (the last one under its step key) into a step whose
    state is the record's status under the table [SUCCESS] to
    [SUCCEEDED], [FAILURE] to [FAILED], [SKIPPED] to [SKIPPED], anything
    else to [UNKNOWN]; the attempts are the record's attempts in order
    with their times converted, the exit state of the last one is that
    mapped state and the exit state of every earlier one is
    [RETRY_REQUESTED]. *)
Theorem summary_fallback_attempts run pre stat post :
  stepStats run = pre ++ stat :: post →
  Forall (λ st, ss_stepKey st ≠ ss_stepKey stat) post →
  (stepStatusToStepState (Some StepEventStatus.SUCCESS) = SUCCEEDED
   ∧ stepStatusToStepState (Some StepEventStatus.FAILURE) = FAILED
   ∧ stepStatusToStepState (Some StepEventStatus.SKIPPED) = SKIPPED
   ∧ (∀ name, stepStatusToStepState (Some (StepEventStatus.OTHER name)) = UNKNOWN)
   ∧ stepStatusToStepState None = UNKNOWN)
  ∧ ∃ s,
      steps (extractMetadataFromRun (Some run)) !! ss_stepKey stat = Some s
      ∧ state s = stepStatusToStepState (ss_status stat)
      ∧ length (attempts s) = length (ss_attempts stat)
      ∧ ∀ (i : nat) attempt,
          ss_attempts stat !! i = Some attempt →
          attempts s !! i
          = Some {| a_start := fromTimestamp (startTime attempt);
                    a_end := fromTimestamp (endTime attempt);
                    a_exitState :=
                      Some (if decide (S i = length (ss_attempts stat))
                            then stepStatusToStepState (ss_status stat)
                            else RETRY_REQUESTED) |}.
Proof.
  intros Hstats Hpost. split; first done.
  exists (stepOfStat stat). split; first by eapply extractMetadataFromRun_lookup.
  split; first done. cbn [stepOfStat attempts].
  split; first by rewrite length_imap.
  intros i attempt Hi. rewrite list_lookup_imap Hi. cbn.
  do 3 f_equal. case_decide as Hlast.
  - rewrite (proj2 (Z.eqb_eq _ _)) //. lia.
  - rewrite (proj2 (Z.eqb_neq _ _)) //. lia.
Qed.

Lemma summary_fallback_attempts_witness :
  let stat := {| ss_stepKey := "stepA"; ss_status := Some StepEventStatus.FAILURE;
                 ss_startTime := Some 0.5%float; ss_endTime := Some 3.5%float;
                 ss_attempts := [mkRange (Some 0.5%float) (Some 1.5%float);
                                 mkRange (Some 2.5%float) (Some 3.5%float)];
                 ss_markers := [] |} in
  ∃ s,
    steps (extractMetadataFromRun (Some (mkRun None None [stat]))) !! "stepA"
    = Some s
    ∧ attempts s = [mkAttempt (Some 500) (Some 1500) (Some RETRY_REQUESTED);
                    mkAttempt (Some 2500) (Some 3500) (Some FAILED)].
Proof.
  intros stat.
  destruct (summary_fallback_attempts (mkRun None None [stat]) [] stat []
              eq_refl (Forall_nil_2 _)) as (_ & s & Hs & _ & Hlen & Hatt).
  exists s. split; first exact Hs.
  pose proof (Hatt 0%nat _ eq_refl) as H0.
  pose proof (Hatt 1%nat _ eq_refl) as H1.
  destruct (attempts s) as [|a0 [|a1 [|a2 l]]]; try discriminate Hlen.
  cbn in H0, H1. by simplify_eq.
Defined.

(** ** Persisted times in milliseconds *)

(** C10: in summary-fallback mode a persisted time [t] becomes the floor of
    the product [t * 1000] (the product of doubles, as the machine
    rounds it), and a time that is zero or [null] becomes absent rather
    than 0; the run's start and exit times, each step's start and end,
    each attempt's start and end and each marker's start and end are all
    converted this way. The times are the finite numbers a run store
    delivers. *)
Theorem summary_fallback_times :
  (∀ t, finiteTime t →
        fromTimestamp t = msOfSeconds t
        ∧ ∀ n, fromTimestamp t = Some n →
               ∃ x, t = Some x ∧ (x =? 0)%float = false
                    ∧ isFloorOf n (x * 1000)%float)
  ∧ ∀ run,
      (finiteTime (run_startTime run) →
       startedPipelineAt (extractMetadataFromRun (Some run))
       = msOfSeconds (run_startTime run))
      ∧ (finiteTime (run_endTime run) →
         exitedAt (extractMetadataFromRun (Some run))
         = msOfSeconds (run_endTime run))
      ∧ ∀ pre stat post,
          stepStats run = pre ++ stat :: post →
          Forall (λ st, ss_stepKey st ≠ ss_stepKey stat) post →
          finiteStat stat →
          ∃ s,
            steps (extractMetadataFromRun (Some run)) !! ss_stepKey stat
            = Some s
            ∧ start s = msOfSeconds (ss_startTime stat)
            ∧ end_ s = msOfSeconds (ss_endTime stat)
            ∧ Forall2 (λ a r, a_start a = msOfSeconds (startTime r)
                              ∧ a_end a = msOfSeconds (endTime r))
                      (attempts s) (ss_attempts stat)
            ∧ Forall2 (λ m r, m_start m = msOfSeconds (startTime r)
                              ∧ m_end m = msOfSeconds (endTime r))
                      (markers s) (ss_markers stat).
Proof.
  split.
  { intros t Hfin. split; first by apply fromTimestamp_msOfSeconds.
    intros n. by apply fromTimestamp_floor. }
  intros run. split; [|split].
  - intros Hfin. cbn [extractMetadataFromRun startedPipelineAt].
    rewrite fromTimestamp_msOfSeconds //.
    destruct (truthyTime (run_startTime run)) eqn:E; first done.
    rewrite -fromTimestamp_msOfSeconds //. unfold fromTimestamp. by rewrite E.
  - intros Hfin. cbn [extractMetadataFromRun exitedAt].
    rewrite fromTimestamp_msOfSeconds //.
    destruct (truthyTime (run_endTime run)) eqn:E; first done.
    rewrite -fromTimestamp_msOfSeconds //. unfold fromTimestamp. by rewrite E.
  - intros pre stat post Hstats Hpost (Hs & He & Hatt & Hmark).
    exists (stepOfStat stat).
    split; first by eapply extractMetadataFromRun_lookup.
    cbn [stepOfStat start end_ attempts markers].
    rewrite !fromTimestamp_msOfSeconds //. do 2 (split; first done).
    split.
    + apply Forall2_same_length_lookup. split; first by rewrite length_imap.
      intros i a r. rewrite list_lookup_imap. intros Ha Hr.
      rewrite Hr in Ha. cbn in Ha. injection Ha as <-. cbn.
      destruct (proj1 (Forall_forall _ _) Hatt r) as [Hrs Hre];
        first by eapply list_elem_of_lookup_2.
      by rewrite !fromTimestamp_msOfSeconds.
    + apply Forall2_same_length_lookup. split; first by rewrite length_imap.
      intros i m r. rewrite list_lookup_imap. intros Hm Hr.
      rewrite Hr in Hm. cbn in Hm. injection Hm as <-. cbn.
      destruct (proj1 (Forall_forall _ _) Hmark r) as [Hrs Hre];
        first by eapply list_elem_of_lookup_2.
      by rewrite !fromTimestamp_msOfSeconds.
Qed.

(** The product is the rounded double product: for the double nearest to
    1700000000.123, which lies below it, the real product has the integer
    part 1700000000122 and the double product is 1700000000123 *)
Lemma fromTimestamp_rounds_as_doubles :
  fromTimestamp (Some 0x1.954fc4007df3bp+30%float) = Some 1700000000123
  ∧ fromTimestamp (Some 1.5%float) = Some 1500
  ∧ fromTimestamp (Some (-0.5)%float) = Some (-500)
  ∧ fromTimestamp (Some 0%float) = None
  ∧ fromTimestamp (Some (-0)%float) = None
  ∧ fromTimestamp None = None.
Proof. repeat split; reflexivity. Qed.

Lemma summary_fallback_times_witness :
  let stat := {| ss_stepKey := "stepA"; ss_status := Some StepEventStatus.SUCCESS;
                 ss_startTime := Some 1.5%float; ss_endTime := Some 0%float;
                 ss_attempts := [mkRange (Some 1.5%float) None];
                 ss_markers := [mkRange (Some (-0.25)%float)
                                        (Some 0x1.954fc4007df3bp+30%float)] |} in
  ∃ s,
    steps (extractMetadataFromRun
             (Some (mkRun (Some 1.25%float) None [stat]))) !! "stepA"
    = Some s
    ∧ start s = Some 1500 ∧ end_ s = None.
Proof.
  intros stat.
  destruct (proj2 (proj2 (proj2 summary_fallback_times
                            (mkRun (Some 1.25%float) None [stat])))
              [] stat [] eq_refl (Forall_nil_2 _))
    as (s & Hs & Hstart & Hend & _).
  { repeat split; repeat constructor. }
  exists s. split; first exact Hs. split; [exact Hstart | exact Hend].
Defined.

(** ** Growing event sequences *)

Lemma applyStepEvent_not_emitting log step :
  emitted log = [] →
  applyStepEvent log step = Some step ∨ applyStepEvent log step = None.
Proof.
  unfold emitted, applyStepEvent.
  destruct (typename log); try discriminate; try case_decide; auto.
Qed.

(** An event that records no transition for step [k] and does not force it
    leaves the timeline of the step as it is *)
Lemma stepEffect_frame k raw log :
  (stepKeyOf log = Some k → emitted log = []) →
  state raw ≠ RUNNING ∨ isRunTerminal log = false →
  ∃ raw', stepEffect k (Some raw) log = Some raw'
          ∧ state raw' = state raw ∧ start raw' = start raw
          ∧ end_ raw' = end_ raw ∧ transitions raw' = transitions raw
          ∧ attempts raw' = attempts raw.
Proof.
  intros Hemit Hforce. unfold stepEffect.
  assert ((if isRunTerminal log
           then forceUnknown (timestamp log) <$> Some raw else Some raw)
          = Some raw) as ->.
  { destruct Hforce as [Hst | ->]; last done.
    destruct (isRunTerminal log); last done.
    cbn. unfold forceUnknown. by rewrite decide_False. }
  case_decide as Hk; last by eauto 10.
  cbv zeta. change (default _ (Some raw)) with raw.
  destruct (applyStepEvent_not_emitting log
              (setMarkers raw (applyMarkers log (markers raw))) (Hemit Hk))
    as [-> | ->]; cbn; eauto 10.
Qed.

Lemma foldl_stepEffect_frame k logs raw :
  Forall (λ log, stepKeyOf log = Some k → emitted log = []) logs →
  state raw ≠ RUNNING ∨ Forall (λ log, isRunTerminal log = false) logs →
  ∃ raw', foldl (stepEffect k) (Some raw) logs = Some raw'
          ∧ state raw' = state raw ∧ start raw' = start raw
          ∧ end_ raw' = end_ raw ∧ transitions raw' = transitions raw
          ∧ attempts raw' = attempts raw.
Proof.
  revert raw. induction logs as [|log logs IH]; intros raw Hemit Hforce.
  { by exists raw. }
  apply Forall_cons in Hemit as [Hlog Hemit]. cbn [foldl].
  destruct (stepEffect_frame k raw log Hlog) as (raw1 & -> & Hst & Hs & He & Ht & Ha).
  { destruct Hforce as [? | [? _]%Forall_cons]; auto. }
  destruct (IH raw1 Hemit) as (raw' & -> & Hst' & Hs' & He' & Ht' & Ha').
  { rewrite Hst. destruct Hforce as [? | [_ ?]%Forall_cons]; auto. }
  exists raw'. split; first done. by rewrite Hst' Hs' He' Ht' Ha'.
Qed.

(** C2, as stated, fails: a success that arrives later with the time of
    the start changes the step although all its transitions, before and
    after, are not later than the last event of the first sequence. *)
Lemma extension_changes_step_within_time_bound :
  let logs := [stepEvent ExecutionStepStartEvent "stepA" 5] in
  let more := [stepEvent ExecutionStepSuccessEvent "stepA" 5] in
  ∃ s s',
    steps (extractMetadataFromLogs logs) !! "stepA" = Some s
    ∧ steps (extractMetadataFromLogs (logs ++ more)) !! "stepA" = Some s'
    ∧ Forall (λ t, t_time t ≤ 5) (transitions s)
    ∧ Forall (λ t, t_time t ≤ 5) (transitions s')
    ∧ state s' ≠ state s ∧ end_ s' ≠ end_ s ∧ attempts s' ≠ attempts s.
Proof.
  intros logs more. do 2 eexists.
  split; first by rewrite extractMetadataFromLogs_lookup.
  split; first by rewrite extractMetadataFromLogs_lookup.
  vm_compute. split; [|split]; [repeat constructor; discriminate..|].
  split; [|split]; discriminate.
Qed.

(** C2 (amended): for every event sequence [e1..en] and every extension
    [e1..en, en+1..em] of it, every step of the first model for which no
    later event [en+1..em] with its key is a step start, success, skip,
    failure, retry or restart, and which is not [RUNNING] after [en] or
    sees no run-terminal event among [en+1..em], has in the model of the
    extended sequence the same [state], [start], [end], transitions and
    attempt list. *)
Theorem extension_keeps_untouched_step logs more k s :
  steps (extractMetadataFromLogs logs) !! k = Some s →
  Forall (λ log, stepKeyOf log = Some k → emitted log = []) more →
  state s ≠ RUNNING ∨ Forall (λ log, isRunTerminal log = false) more →
  ∃ s', steps (extractMetadataFromLogs (logs ++ more)) !! k = Some s'
        ∧ sameTimeline s s'.
Proof.
  intros Hs Hemit Hforce.
  apply extractMetadataFromLogs_step in Hs as (raw & Hraw & ->).
  cbn [state] in Hforce.
  destruct (foldl_stepEffect_frame k more raw Hemit Hforce)
    as (raw' & Hraw' & Hst & Hstart & Hend & Htr & Hatt).
  eexists. split.
  { apply extractMetadataFromLogs_step. exists raw'. split; last done.
    by rewrite reduceLogs_lookup foldl_app -reduceLogs_lookup Hraw. }
  unfold sameTimeline. cbn. by rewrite Hst Hstart Hend Htr.
Qed.

Lemma extension_keeps_untouched_step_witness :
  ∃ s', steps (extractMetadataFromLogs
                 ([stepEvent ExecutionStepStartEvent "stepA" 0;
                   stepEvent ExecutionStepSuccessEvent "stepA" 10]
                  ++ [stepEvent ExecutionStepStartEvent "stepB" 11;
                      stepEvent OtherEvent "stepA" 12;
                      runEvent RunSuccessEvent 20])) !! "stepA" = Some s'
        ∧ sameTimeline
            {| state := SUCCEEDED; start := Some 0; end_ := Some 10;
               transitions := [PREPARING @ 0; RUNNING @ 0; SUCCEEDED @ 10];
               attempts := [mkAttempt (Some 0) (Some 10) (Some SUCCEEDED)];
               markers := [] |} s'.
Proof.
  apply extension_keeps_untouched_step.
  - by rewrite extractMetadataFromLogs_lookup.
  - repeat constructor; cbn; first [done | by intros [=]].
  - left. discriminate.
Defined.

(** ** The state and the latest transition *)

Lemma applyStepEvent_state_last log step step' :
  applyStepEvent log step = Some step' →
  (∃ t, last (transitions step) = Some t ∧ t_state t = state step) →
  ∃ t, last (transitions step') = Some t ∧ t_state t = state step'.
Proof.
  unfold applyStepEvent. intros H Hlast.
  destruct (typename log); try case_decide; simplify_eq; try done;
    cbn; rewrite last_snoc; by eexists.
Qed.

(** While events are folded, the state of a step is the state of the
    transition recorded last *)
Lemma stepEffect_state_last k o log :
  (∀ raw, o = Some raw →
     ∃ t, last (transitions raw) = Some t ∧ t_state t = state raw) →
  ∀ raw, stepEffect k o log = Some raw →
    ∃ t, last (transitions raw) = Some t ∧ t_state t = state raw.
Proof.
  intros Ho.
  assert (∀ raw, (if isRunTerminal log then forceUnknown (timestamp log) <$> o
                  else o) = Some raw →
            ∃ t, last (transitions raw) = Some t ∧ t_state t = state raw) as Ho1.
  { destruct (isRunTerminal log); last done.
    intros raw Hraw. apply fmap_Some in Hraw as (raw0 & Hraw0 & ->).
    unfold forceUnknown. case_decide; last by apply Ho.
    cbn. rewrite last_snoc. by eexists. }
  unfold stepEffect. cbv zeta. case_decide; last done.
  set (o1 := if isRunTerminal log then _ else _) in *.
  assert (∃ t, last (transitions (default (newStep (timestamp log)) o1)) = Some t
               ∧ t_state t = state (default (newStep (timestamp log)) o1)) as Hd.
  { destruct o1 as [raw1|]; [by apply Ho1 | by eexists]. }
  intros raw. destruct (applyStepEvent _ _) eqn:E.
  - intros [= <-]. by eapply applyStepEvent_state_last.
  - intros Hraw. apply fmap_Some in Hraw as (raw0 & Hraw0 & ->). done.
Qed.

Lemma reduceLogs_state_last logs k raw :
  steps (reduceLogs logs) !! k = Some raw →
  ∃ t, last (transitions raw) = Some t ∧ t_state t = state raw.
Proof.
  rewrite reduceLogs_lookup. revert raw.
  induction logs as [|log logs IH] using rev_ind; first done.
  rewrite foldl_app. cbn. by apply stepEffect_state_last.
Qed.

(** C3: the state of a step is the state recorded last in arrival order,
    not the state of its latest transition: when the success of [stepA]
    at time 10 arrives before its start at time 0, the model gives
    [stepA] the state [RUNNING] while its time-sorted transitions end
    with [SUCCEEDED@10]. *)
Theorem state_not_latest_transition_out_of_order :
  ∃ s,
    steps (extractMetadataFromLogs
             [stepEvent ExecutionStepSuccessEvent "stepA" 10;
              stepEvent ExecutionStepStartEvent "stepA" 0]) !! "stepA" = Some s
    ∧ state s = RUNNING
    ∧ transitions s = [RUNNING @ 0; PREPARING @ 10; SUCCEEDED @ 10]
    ∧ last (transitions s) = Some (SUCCEEDED @ 10)
    ∧ ¬ ∃ t, last (transitions s) = Some t ∧ t_state t = state s.
Proof.
  eexists. split; first by rewrite extractMetadataFromLogs_lookup.
  cbn. do 3 (split; first done).
  intros (t & Hlast & Hstate). by injection Hlast as <-.
Qed.

(** The state is the state of the latest transition whenever the
    transition recorded last is not earlier than the ones recorded
    before it, whatever their order *)
Lemma state_is_latest_transition_when_recorded_last logs k raw pre t s :
  steps (reduceLogs logs) !! k = Some raw →
  transitions raw = pre ++ [t] →
  Forall (λ u, t_time u ≤ t_time t) pre →
  steps (extractMetadataFromLogs logs) !! k = Some s →
  last (transitions s) = Some t ∧ t_state t = state s.
Proof.
  intros Hraw Hpre Hle Hs.
  apply extractMetadataFromLogs_step in Hs as (raw' & Hraw' & ->).
  rewrite Hraw in Hraw'. injection Hraw' as <-. cbn.
  rewrite Hpre sortByTime_snoc // last_snoc. split; first done.
  destruct (reduceLogs_state_last _ _ _ Hraw) as (t' & Hlast & Hstate).
  rewrite Hpre last_snoc in Hlast. by injection Hlast as <-.
Qed.

(** A restart stamped with the time of the retry sorts before the
    [PREPARING] transition the retry put one time unit later, so the last
    sorted transition is not the state although the events came in time
    order *)
Lemma state_not_latest_transition_after_retry_tie :
  ∃ s,
    steps (extractMetadataFromLogs
             [stepEvent ExecutionStepStartEvent "stepA" 0;
              stepEvent ExecutionStepUpForRetryEvent "stepA" 5;
              stepEvent ExecutionStepRestartEvent "stepA" 5]) !! "stepA" = Some s
    ∧ state s = RUNNING
    ∧ last (transitions s) = Some (PREPARING @ 6).
Proof.
  eexists. split; first by rewrite extractMetadataFromLogs_lookup.
  by vm_compute.
Qed.

(** ** Reordering the events *)

Lemma applyStepEvent_None log step :
  applyStepEvent log step = None ↔ isCacheCopy log = true.
Proof.
  unfold applyStepEvent, isCacheCopy.
  destruct (typename log); cbn; try (split; intros; discriminate).
  case_decide as Hop.
  - split; intros _; last done. by apply bool_decide_eq_true.
  - split; first done. by intros Hb%bool_decide_eq_true.
Qed.





(** Two transitions with one time keep their arrival order, so the order
    of a start and a success with the same time decides the attempts *)
Lemma reordering_ties_changes_attempts :
  let logs := [stepEvent OtherEvent "stepA" 1;
               stepEvent ExecutionStepStartEvent "stepA" 5;
               stepEvent ExecutionStepSuccessEvent "stepA" 5] in
  let logs' := [stepEvent OtherEvent "stepA" 1;
                stepEvent ExecutionStepSuccessEvent "stepA" 5;
                stepEvent ExecutionStepStartEvent "stepA" 5] in
  logs ≡ₚ logs'
  ∧ (attempts <$> steps (extractMetadataFromLogs logs) !! "stepA")
    = Some [mkAttempt (Some 5) (Some 5) (Some SUCCEEDED)]
  ∧ (attempts <$> steps (extractMetadataFromLogs logs') !! "stepA")
    = Some [mkAttempt (Some 5) None None].
Proof.
  intros logs logs'. split; first apply perm_skip, Permutation_swap.
  rewrite !extractMetadataFromLogs_lookup. by vm_compute.
Qed.

(** A run-terminal event forces the steps that are [RUNNING] when it
    arrives, whatever its time, so its place in the arrival order decides
    the transitions and the attempts *)
Lemma reordering_run_end_changes_transitions :
  let logs := [stepEvent OtherEvent "stepA" 1;
               stepEvent ExecutionStepStartEvent "stepA" 2;
               runEvent RunSuccessEvent 3] in
  let logs' := [stepEvent OtherEvent "stepA" 1;
                runEvent RunSuccessEvent 3;
                stepEvent ExecutionStepStartEvent "stepA" 2] in
  logs ≡ₚ logs'
  ∧ (transitions <$> steps (extractMetadataFromLogs logs) !! "stepA")
    = Some [PREPARING @ 1; RUNNING @ 2; UNKNOWN @ 3]
  ∧ (attempts <$> steps (extractMetadataFromLogs logs) !! "stepA")
    = Some [mkAttempt (Some 2) (Some 3) (Some UNKNOWN)]
  ∧ (transitions <$> steps (extractMetadataFromLogs logs') !! "stepA")
    = Some [PREPARING @ 1; RUNNING @ 2]
  ∧ (attempts <$> steps (extractMetadataFromLogs logs') !! "stepA")
    = Some [mkAttempt (Some 2) None None].
Proof.
  intros logs logs'. split; first apply perm_skip, Permutation_swap.
  rewrite !extractMetadataFromLogs_lookup. by vm_compute.
Qed.

(** * Further properties of the reducer *)

(** ** Sorted transitions *)

Lemma insertByTime_filter_time x l t :
  filter (λ u, t_time u = t) (insertByTime x l)
  = filter (λ u, t_time u = t) (x :: l).
Proof.
  induction l as [|u l IH]; first done.
  cbn [insertByTime]. destruct (t_time x <=? t_time u) eqn:Hle; first done.
  apply Z.leb_gt in Hle.
  rewrite filter_cons IH !filter_cons.
  repeat case_decide; try done; lia.
Qed.

Lemma sortByTime_filter_time l t :
  filter (λ u, t_time u = t) (sortByTime l) = filter (λ u, t_time u = t) l.
Proof.
  induction l as [|x l IH]; first done.
  by rewrite sortByTime_cons insertByTime_filter_time !filter_cons IH.
Qed.

(** X1: the transitions of every step of the model are the transitions
    the loop recorded for it, rearranged in non-decreasing time order, and
    transitions with one and the same time keep the order in which they
    were recorded. *)
Theorem transitions_sorted_stable logs k s :
  steps (extractMetadataFromLogs logs) !! k = Some s →
  ∃ raw, steps (reduceLogs logs) !! k = Some raw
         ∧ Sorted timeLe (transitions s)
         ∧ transitions s ≡ₚ transitions raw
         ∧ ∀ t, filter (λ u, t_time u = t) (transitions s)
                = filter (λ u, t_time u = t) (transitions raw).
Proof.
  intros Hs. apply extractMetadataFromLogs_step in Hs as (raw & Hraw & ->).
  exists raw. cbn [transitions].
  auto using sortByTime_Sorted, sortByTime_Permutation, sortByTime_filter_time.
Qed.

Lemma transitions_sorted_stable_witness :
  ∃ raw,
    steps (reduceLogs [stepEvent ExecutionStepSuccessEvent "stepA" 5;
                       stepEvent ExecutionStepStartEvent "stepA" 5;
                       stepEvent ExecutionStepRestartEvent "stepA" 2]) !! "stepA"
    = Some raw
    ∧ Sorted timeLe [RUNNING @ 2; PREPARING @ 5; SUCCEEDED @ 5; RUNNING @ 5]
    ∧ [RUNNING @ 2; PREPARING @ 5; SUCCEEDED @ 5; RUNNING @ 5]
      ≡ₚ transitions raw
    ∧ ∀ t, filter (λ u, t_time u = t)
             [RUNNING @ 2; PREPARING @ 5; SUCCEEDED @ 5; RUNNING @ 5]
           = filter (λ u, t_time u = t) (transitions raw).
Proof.
  apply (transitions_sorted_stable _ "stepA"
           {| state := RUNNING; start := Some 5; end_ := Some 5;
              transitions := [RUNNING @ 2; PREPARING @ 5; SUCCEEDED @ 5;
                              RUNNING @ 5];
              attempts := [mkAttempt (Some 2) (Some 5) (Some SUCCEEDED);
                           mkAttempt (Some 5) None None];
              markers := [] |}).
  rewrite extractMetadataFromLogs_lookup. by vm_compute.
Defined.

(** ** Attempt boxes *)

(** Induction along the scan: a property of the transitions scanned so far
    and the scan state *)
Lemma scanAttempts_invariant (P : list ITransition → AttemptScan → Prop) l :
  P [] ([], None) →
  (∀ seen sc t, seen ++ [t] `prefix_of` l → P seen sc →
                P (seen ++ [t]) (attemptStep sc t)) →
  P l (scanAttempts ([], None) l).
Proof.
  intros Hnil Hstep. induction l as [|t l IH] using rev_ind; first done.
  rewrite scanAttempts_app. cbn. apply Hstep; first done.
  apply IH. intros seen sc u Hpre. apply Hstep.
  etrans; first done. by apply prefix_app_r.
Qed.

Lemma attemptFrom_mono tr tr' a : tr ⊆ tr' → attemptFrom tr a → attemptFrom tr' a.
Proof.
  intros Hsub (t0 & Hstart & Hin & Hend). exists t0.
  split; first done. split; first by apply Hsub.
  destruct (a_end a), (a_exitState a); try done.
  destruct Hend as (? & ? & ?). auto.
Qed.

Lemma deriveAttempts_attemptFrom l :
  Sorted timeLe l → Forall (attemptFrom l) (deriveAttempts l).
Proof.
  intros Hsorted%Sorted_StronglySorted; last apply _.
  unfold deriveAttempts.
  apply (scanAttempts_invariant
           (λ seen sc, Forall (attemptFrom seen) (pushedAttempts sc))).
  { constructor. }
  intros seen [closed cur] t Hpre Hinv.
  assert (Forall (λ u, t_time u ≤ t_time t) seen) as Hle.
  { destruct Hpre as [rest ->].
    apply StronglySorted_app_1_l in Hsorted.
    apply StronglySorted_app in Hsorted as (Hall & _ & _).
    apply Forall_forall. intros u Hu. apply (Hall u t Hu). by left. }
  assert (Forall (attemptFrom (seen ++ [t])) (closed ++ option_list cur)) as Hinv'.
  { eapply Forall_impl; first exact Hinv.
    intros a. apply attemptFrom_mono. set_solver. }
  clear Hinv. unfold pushedAttempts, attemptStep in *. cbn [fst snd] in *.
  destruct t as [st ts]. cbn [t_state t_time] in *.
  destruct (decide (st = RUNNING)) as [->|Hst].
  - rewrite bool_decide_eq_true_2 // andb_true_r.
    assert (attemptFrom (seen ++ [RUNNING @ ts])
              (mkAttempt (Some ts) None None)) as Hnew.
    { exists ts. cbn. split; first done. split; last done. set_solver. }
    destruct cur as [a|]; cbn.
    + destruct (truthyNum (a_end a)); cbn; last done.
      apply Forall_app. split; first done. by constructor.
    + rewrite app_nil_r. apply Forall_app. split; last by constructor.
      by rewrite app_nil_r in Hinv'.
  - rewrite bool_decide_eq_false_2 // andb_false_r.
    destruct cur as [a|]; last done.
    destruct (isBoxExitState st) eqn:Hexit; last done. cbn.
    apply Forall_app in Hinv' as [Hclosed Ha].
    apply Forall_app. split; first done.
    apply Forall_inv in Ha. destruct Ha as (t0 & Hstart & Hin & _).
    constructor; last done. exists t0. cbn.
    split; first done. split; first done.
    split; first done.
    split; first (apply elem_of_app; right; by apply list_elem_of_singleton).
    destruct (proj1 (elem_of_app _ _ _) Hin) as [Hin1 | Hin2].
    + by apply (proj1 (Forall_forall _ _) Hle _ Hin1).
    + apply list_elem_of_singleton in Hin2. by simplify_eq.
Qed.

(** X2: every attempt of every step of the model starts at the time of one
    of the step's [RUNNING] transitions; it has an end exactly when it has
    an exit state, and then the step has a transition into that exit state
    (one of [RETRY_REQUESTED], [SUCCEEDED], [FAILED], [UNKNOWN]) at the
    end time, which is not earlier than the start. *)
Theorem attempts_read_off_transitions logs k s a :
  steps (extractMetadataFromLogs logs) !! k = Some s →
  a ∈ attempts s →
  attemptFrom (transitions s) a.
Proof.
  intros Hs Ha.
  rewrite (extractMetadataFromLogs_attempts _ _ _ Hs) in Ha.
  apply extractMetadataFromLogs_step in Hs as (raw & _ & ->).
  cbn [transitions] in *.
  by apply (proj1 (Forall_forall _ _)
              (deriveAttempts_attemptFrom _ (sortByTime_Sorted _))).
Qed.

Lemma attempts_read_off_transitions_witness :
  attemptFrom [PREPARING @ 0; RUNNING @ 0; SUCCEEDED @ 10]
              (mkAttempt (Some 0) (Some 10) (Some SUCCEEDED)).
Proof.
  apply (attempts_read_off_transitions
           [stepEvent ExecutionStepStartEvent "stepA" 0;
            stepEvent ExecutionStepSuccessEvent "stepA" 10]
           "stepA"
           {| state := SUCCEEDED; start := Some 0; end_ := Some 10;
              transitions := [PREPARING @ 0; RUNNING @ 0; SUCCEEDED @ 10];
              attempts := [mkAttempt (Some 0) (Some 10) (Some SUCCEEDED)];
              markers := [] |}).
  - rewrite extractMetadataFromLogs_lookup. by vm_compute.
  - apply list_elem_of_here.
Defined.

Lemma scanAttempts_closed_truthy l :
  Forall (λ b, truthyNum (a_end b) = true) (scanAttempts ([], None) l).1.
Proof.
  apply (scanAttempts_invariant
           (λ _ sc, Forall (λ b, truthyNum (a_end b) = true) sc.1)).
  { constructor. }
  intros seen [closed cur] t _ Hinv. cbn [fst] in Hinv.
  unfold attemptStep.
  destruct cur as [a|]; cbn.
  - destruct (truthyNum (a_end a)) eqn:Ha, (bool_decide (t_state t = RUNNING));
      cbn; repeat case_match; cbn; try done;
      apply Forall_app; split; try done; by repeat constructor.
  - destruct (bool_decide (t_state t = RUNNING)); cbn;
      repeat case_match; cbn; rewrite ?app_nil_r; done.
Qed.

(** X3: in every step of the model only the last attempt can be open:
    every attempt before the last one has a truthy [end]. *)
Theorem only_last_attempt_open logs k s closed a :
  steps (extractMetadataFromLogs logs) !! k = Some s →
  attempts s = closed ++ [a] →
  Forall (λ b, truthyNum (a_end b) = true) closed.
Proof.
  intros Hs Hatt.
  rewrite (extractMetadataFromLogs_attempts _ _ _ Hs) in Hatt.
  pose proof (scanAttempts_closed_truthy (transitions s)) as Hclosed.
  by rewrite (deriveAttempts_snoc_inv _ _ _ Hatt) in Hclosed.
Qed.

Lemma only_last_attempt_open_witness :
  Forall (λ b, truthyNum (a_end b) = true)
         [mkAttempt (Some 0) (Some 5) (Some RETRY_REQUESTED)].
Proof.
  apply (only_last_attempt_open
           [stepEvent ExecutionStepStartEvent "stepA" 0;
            stepEvent ExecutionStepUpForRetryEvent "stepA" 5;
            stepEvent ExecutionStepRestartEvent "stepA" 8]
           "stepA"
           {| state := RUNNING; start := Some 0; end_ := None;
              transitions := [PREPARING @ 0; RUNNING @ 0; RETRY_REQUESTED @ 5;
                              PREPARING @ 6; RUNNING @ 8];
              attempts := [mkAttempt (Some 0) (Some 5) (Some RETRY_REQUESTED);
                           mkAttempt (Some 8) None None];
              markers := [] |}
           _ (mkAttempt (Some 8) None None)).
  - rewrite extractMetadataFromLogs_lookup. by vm_compute.
  - reflexivity.
Defined.

Lemma deriveAttempts_length l :
  (length (deriveAttempts l)
   ≤ length (filter (λ t, t_state t = RUNNING) l))%nat.
Proof.
  unfold deriveAttempts.
  apply (scanAttempts_invariant
           (λ seen sc, (length (pushedAttempts sc)
                        ≤ length (filter (λ t, t_state t = RUNNING) seen))%nat)).
  { done. }
  intros seen [closed cur] t _ Hinv.
  unfold pushedAttempts, attemptStep in *. cbn [fst snd] in *.
  rewrite filter_app length_app. rewrite length_app in Hinv.
  destruct (decide (t_state t = RUNNING)) as [Hr|Hr].
  - rewrite filter_cons_True // bool_decide_eq_true_2 // andb_true_r Hr.
    change (isBoxExitState RUNNING) with false. cbn.
    destruct cur as [a|]; cbn in *.
    + destruct (truthyNum (a_end a)); cbn; rewrite ?length_app /=; lia.
    + rewrite app_nil_r ?length_app /=. lia.
  - rewrite filter_cons_False // bool_decide_eq_false_2 // andb_false_r.
    destruct cur as [a|]; cbn in *.
    + destruct (isBoxExitState (t_state t)); rewrite ?length_app /=; lia.
    + rewrite ?length_app /=. lia.
Qed.

(** X4: a step of the model has at most as many attempts as it has
    [RUNNING] transitions; a step that never ran (one that was only
    skipped, say) has no attempt at all. *)
Theorem attempts_bounded_by_running logs k s :
  steps (extractMetadataFromLogs logs) !! k = Some s →
  (length (attempts s)
   ≤ length (filter (λ t, t_state t = RUNNING) (transitions s)))%nat
  ∧ (Forall (λ t, t_state t ≠ RUNNING) (transitions s) → attempts s = []).
Proof.
  intros Hs. rewrite (extractMetadataFromLogs_attempts _ _ _ Hs).
  pose proof (deriveAttempts_length (transitions s)) as Hlen.
  split; first done. intros Hnone.
  assert (filter (λ t, t_state t = RUNNING) (transitions s) = []) as Hnil.
  { clear Hlen. induction Hnone as [|t l Ht Hl IH]; first done.
    by rewrite filter_cons decide_False. }
  rewrite Hnil in Hlen. by apply nil_length_inv, Nat.le_0_r.
Qed.

Lemma attempts_bounded_by_running_witness :
  (length ([] : list IStepAttempt)
   ≤ length (filter (λ t, t_state t = RUNNING)
               [PREPARING @ 3; SKIPPED @ 3]))%nat
  ∧ (Forall (λ t, t_state t ≠ RUNNING) [PREPARING @ 3; SKIPPED @ 3]
     → ([] : list IStepAttempt) = []).
Proof.
  apply (attempts_bounded_by_running
           [stepEvent ExecutionStepSkippedEvent "stepA" 3] "stepA"
           {| state := SKIPPED; start := None; end_ := None;
              transitions := [PREPARING @ 3; SKIPPED @ 3];
              attempts := []; markers := [] |}).
  rewrite extractMetadataFromLogs_lookup. by vm_compute.
Defined.

Lemma scanAttempts_filter_neutral sc l :
  scanAttempts sc (filter (λ t, ¬ neutralTransition t) l) = scanAttempts sc l.
Proof.
  revert sc. induction l as [|t l IH]; intros sc; first done.
  rewrite filter_cons scanAttempts_cons. case_decide as Hn.
  - by rewrite scanAttempts_cons IH.
  - rewrite IH attemptStep_neutral //.
    + by destruct Hn as [-> | ->].
    + by destruct Hn as [-> | ->].
Qed.

(** X5: [PREPARING] and [SKIPPED] transitions play no part in the
    attempts: the attempts of every step of the model are those derived
    from its transitions with the [PREPARING] and [SKIPPED] ones left
    out. *)
Theorem attempts_ignore_preparing_and_skipped logs k s :
  steps (extractMetadataFromLogs logs) !! k = Some s →
  attempts s
  = deriveAttempts (filter (λ t, ¬ neutralTransition t) (transitions s)).
Proof.
  intros Hs. rewrite (extractMetadataFromLogs_attempts _ _ _ Hs).
  unfold deriveAttempts. by rewrite scanAttempts_filter_neutral.
Qed.

Lemma attempts_ignore_preparing_and_skipped_witness :
  [mkAttempt (Some 0) (Some 5) (Some RETRY_REQUESTED)]
  = deriveAttempts
      (filter (λ t, ¬ neutralTransition t)
         [PREPARING @ 0; RUNNING @ 0; RETRY_REQUESTED @ 5; PREPARING @ 6]).
Proof.
  apply (attempts_ignore_preparing_and_skipped
           [stepEvent ExecutionStepStartEvent "stepA" 0;
            stepEvent ExecutionStepUpForRetryEvent "stepA" 5]
           "stepA"
           {| state := PREPARING; start := Some 0; end_ := None;
              transitions := [PREPARING @ 0; RUNNING @ 0;
                              RETRY_REQUESTED @ 5; PREPARING @ 6];
              attempts := [mkAttempt (Some 0) (Some 5) (Some RETRY_REQUESTED)];
              markers := [] |}).
  rewrite extractMetadataFromLogs_lookup. by vm_compute.
Defined.

(** ** The end of the run *)

Lemma isRunTerminal_not_marker log :
  isRunTerminal log = true → refineMarkerEvent log = None.
Proof. unfold isRunTerminal, refineMarkerEvent. by destruct (typename log). Qed.

Lemma isRunTerminal_applyStepEvent log step :
  isRunTerminal log = true → applyStepEvent log step = Some step.
Proof. unfold isRunTerminal, applyStepEvent. by destruct (typename log). Qed.

Lemma stepEffect_terminal_Some k raw log :
  isRunTerminal log = true →
  stepEffect k (Some raw) log = Some (forceUnknown (timestamp log) raw).
Proof.
  intros Hterm. unfold stepEffect. rewrite Hterm. cbn [fmap option_fmap option_map].
  case_decide; last done. cbv zeta.
  change (default _ (Some ?x)) with x.
  rewrite applyMarkers_not_marker; last by apply isRunTerminal_not_marker.
  by rewrite setMarkers_id isRunTerminal_applyStepEvent.
Qed.

Lemma stepEffect_terminal_None k log raw :
  isRunTerminal log = true →
  stepEffect k None log = Some raw → raw = newStep (timestamp log).
Proof.
  intros Hterm. unfold stepEffect. rewrite Hterm. cbn [fmap option_fmap option_map].
  case_decide; last done. cbv zeta.
  change (default _ None) with (newStep (timestamp log)).
  rewrite applyMarkers_not_marker; last by apply isRunTerminal_not_marker.
  rewrite setMarkers_id isRunTerminal_applyStepEvent //. congruence.
Qed.

Lemma extractMetadataFromLogs_snoc_lookup logs log k :
  steps (extractMetadataFromLogs (logs ++ [log])) !! k
  = postProcessStep <$> stepEffect k (steps (reduceLogs logs) !! k) log.
Proof.
  by rewrite extractMetadataFromLogs_lookup foldl_app -reduceLogs_lookup.
Qed.

(** X6: when a run failure, success or cancellation event arrives, the
    model's [exitedAt] is its timestamp and no step of the model is
    [RUNNING]: every step that was [RUNNING] is now [UNKNOWN], with the
    transition [UNKNOWN] at the event's timestamp added to its transitions
    and the same [start] and [end]; when that timestamp is not earlier
    than the step's transitions, the step's last attempt ends there with
    exit state [UNKNOWN]. *)
Theorem run_end_forces_running_steps logs log :
  isRunTerminal log = true →
  let T := timestamp log in
  let model := extractMetadataFromLogs (logs ++ [log]) in
  exitedAt model = Some T
  ∧ (∀ k s', steps model !! k = Some s' → state s' ≠ RUNNING)
  ∧ (∀ k s, steps (extractMetadataFromLogs logs) !! k = Some s →
       state s = RUNNING →
       ∃ s', steps model !! k = Some s'
             ∧ state s' = UNKNOWN ∧ start s' = start s ∧ end_ s' = end_ s
             ∧ transitions s' ≡ₚ transitions s ++ [UNKNOWN @ T]
             ∧ (Forall (λ u, t_time u ≤ T) (transitions s) →
                ∀ closed a, attempts s = closed ++ [a] →
                  transitions s' = transitions s ++ [UNKNOWN @ T]
                  ∧ attempts s'
                    = closed ++ [mkAttempt (a_start a) (Some T) (Some UNKNOWN)])).
Proof.
  intros Hterm T model. split; [|split].
  - unfold model, extractMetadataFromLogs, setSteps. cbn [exitedAt].
    rewrite reduceLogs_snoc. cbn [processLog exitedAt]. by rewrite Hterm.
  - intros k s'. unfold model. rewrite extractMetadataFromLogs_snoc_lookup.
    intros (raw' & Hraw' & ->)%fmap_Some. cbn [postProcessStep state].
    destruct (steps (reduceLogs logs) !! k) as [raw|].
    + rewrite stepEffect_terminal_Some // in Hraw'. injection Hraw' as <-.
      unfold forceUnknown. by case_decide.
    + by rewrite (stepEffect_terminal_None _ _ _ Hterm Hraw').
  - intros k s Hs Hrun.
    apply extractMetadataFromLogs_step in Hs as (raw & Hraw & ->).
    cbn [state start end_ transitions attempts] in *.
    eexists. split.
    { unfold model. apply extractMetadataFromLogs_step. eexists. split; last done.
      rewrite reduceLogs_lookup foldl_app -reduceLogs_lookup Hraw. cbn [foldl].
      by apply stepEffect_terminal_Some. }
    unfold forceUnknown. rewrite decide_True //.
    cbn [state start end_ transitions attempts upsertState].
    do 3 (split; first done). split.
    { by rewrite !sortByTime_Permutation. }
    intros Hle closed a Hatt.
    rewrite (sortByTime_Permutation (transitions raw)) in Hle.
    rewrite sortByTime_snoc //. split; first done.
    rewrite deriveAttempts_app (deriveAttempts_snoc_inv _ _ _ Hatt).
    by rewrite scanAttempts_cons attemptStep_exit.
Qed.

Lemma run_end_forces_running_steps_witness :
  ∃ s', steps (extractMetadataFromLogs
                 ([stepEvent ExecutionStepStartEvent "x" 1]
                  ++ [runEvent RunFailureEvent 4])) !! "x" = Some s'
        ∧ state s' = UNKNOWN ∧ start s' = Some 1 ∧ end_ s' = None
        ∧ transitions s' ≡ₚ [PREPARING @ 1; RUNNING @ 1] ++ [UNKNOWN @ 4]
        ∧ (Forall (λ u, t_time u ≤ 4) [PREPARING @ 1; RUNNING @ 1] →
           ∀ closed a, [mkAttempt (Some 1) None None] = closed ++ [a] →
             transitions s' = [PREPARING @ 1; RUNNING @ 1] ++ [UNKNOWN @ 4]
             ∧ attempts s'
               = closed ++ [mkAttempt (a_start a) (Some 4) (Some UNKNOWN)]).
Proof.
  apply (proj2 (proj2 (run_end_forces_running_steps
                         [stepEvent ExecutionStepStartEvent "x" 1]
                         (runEvent RunFailureEvent 4) eq_refl))
           "x"
           {| state := RUNNING; start := Some 1; end_ := None;
              transitions := [PREPARING @ 1; RUNNING @ 1];
              attempts := [mkAttempt (Some 1) None None];
              markers := [] |}).
  - rewrite extractMetadataFromLogs_lookup. by vm_compute.
  - reflexivity.
Defined.

(** ** Which steps the model has *)

Lemma stepEffect_None_is_Some k log :
  is_Some (stepEffect k None log) ↔ storesStep k log = true.
Proof.
  unfold stepEffect, storesStep.
  assert ((if isRunTerminal log
           then forceUnknown (timestamp log) <$> None else None)
          = (None : option IStepMetadata)) as -> by by destruct (isRunTerminal log).
  case_decide as Hk.
  - rewrite bool_decide_eq_true_2 //. cbv zeta. cbn [andb].
    destruct (applyStepEvent _ _) eqn:E.
    + split; first intros _; last by eauto.
      apply negb_true_iff, not_true_is_false. intros Hcp.
      by rewrite (proj2 (applyStepEvent_None _ _) Hcp) in E.
    + apply applyStepEvent_None in E. rewrite E. cbn.
      split; intros H; [destruct H as [? ?]|]; done.
  - rewrite bool_decide_eq_false_2 //.
Qed.

Lemma foldl_stepEffect_is_Some k logs :
  is_Some (foldl (stepEffect k) None logs)
  ↔ ∃ log, log ∈ logs ∧ storesStep k log = true.
Proof.
  induction logs as [|log logs IH] using rev_ind.
  { cbn. split; intros H; [by destruct H as [? ?] |].
    destruct H as (? & Hin & _). by inv Hin. }
  rewrite foldl_app. cbn [foldl].
  destruct (foldl (stepEffect k) None logs) as [raw|] eqn:E.
  - destruct (stepEffect_grows k raw log) as (raw' & more & -> & _).
    split; first intros _; last by eauto.
    destruct (proj1 IH) as (log0 & Hin & Hst); first by eauto.
    exists log0. split; last done. apply elem_of_app. by left.
  - rewrite stepEffect_None_is_Some. split.
    + intros Hst. exists log. split; last done. apply elem_of_app. right.
      by apply list_elem_of_singleton.
    + intros (log0 & [Hin | Hin%list_elem_of_singleton]%elem_of_app & Hst).
      * destruct (proj2 IH) as [? ?]; [by eauto | done].
      * by subst.
Qed.

(** X7: when the step keys of the events are ordinary keys, the model has
    a step for an ordinary key exactly when some event carries that key
    (a truthy one) and is not a cache copy; no other event makes a step,
    and no event removes one. *)
Theorem steps_are_the_stored_keys logs k :
  ordinaryStepKeys logs → ordinaryKey k →
  k ∈ dom (steps (extractMetadataFromLogs logs))
  ↔ ∃ log, log ∈ logs ∧ stepKeyOf log = Some k ∧ isCacheCopy log = false.
Proof.
  intros _ _.
  rewrite elem_of_dom extractMetadataFromLogs_lookup fmap_is_Some.
  rewrite foldl_stepEffect_is_Some. unfold storesStep.
  split; intros (log & Hin & H); exists log; split; try done.
  - apply andb_prop in H as [Hk%bool_decide_eq_true Hcp%negb_true_iff]. done.
  - destruct H as [Hk ->]. by rewrite bool_decide_eq_true_2.
Qed.

Lemma steps_are_the_stored_keys_witness :
  let copy := {| typename := ObjectStoreOperationEvent; timestamp := 2;
                 stepKey := Some "stepB"; markerStart := None;
                 markerEnd := None; operationResult_op := "CP_OBJECT";
                 fileKey := EmptyString; stepKeys := None; pid := None;
                 externalUrl := None |} in
  let logs := [stepEvent OtherEvent "stepA" 1; copy; runEvent EngineEvent 3] in
  "stepA" ∈ dom (steps (extractMetadataFromLogs logs))
  ∧ "stepB" ∉ dom (steps (extractMetadataFromLogs logs)).
Proof.
  intros copy logs.
  assert (ordinaryStepKeys logs) as Hkeys.
  { repeat constructor; intros key [= <-]; by apply (bool_decide_unpack _). }
  split.
  - apply (steps_are_the_stored_keys logs "stepA" Hkeys);
      first by apply (bool_decide_unpack _).
    exists (stepEvent OtherEvent "stepA" 1). split; last done.
    apply list_elem_of_here.
  - intros Hin.
    apply (steps_are_the_stored_keys logs "stepB" Hkeys) in Hin;
      last by apply (bool_decide_unpack _).
    destruct Hin as (log & Hin & Hk & Hcp).
    repeat (apply elem_of_cons in Hin as [-> | Hin]; first done).
    by apply elem_of_nil in Hin.
Defined.

Lemma stepEffect_not_affecting k o log :
  affectsSteps log = false → stepEffect k o log = o.
Proof.
  unfold affectsSteps. intros [Hterm Hst]%orb_false_elim.
  apply andb_false_iff in Hst as [Hk | Hcp].
  - apply bool_decide_eq_false in Hk.
    rewrite stepEffect_ne ?Hterm //. intros Hk'. apply Hk. rewrite Hk'. by eexists.
  - apply negb_false_iff in Hcp. by apply stepEffect_cacheCopy.
Qed.

(** X8: the steps of the model depend only on the run-terminal events and
    on the events that carry a step key and are no cache copy: every other
    event (one without a step key, or a cache copy) can be left out of the
    sequence without changing any step. *)
Theorem steps_depend_on_step_and_run_end_events logs :
  steps (extractMetadataFromLogs logs)
  = steps (extractMetadataFromLogs (filter (λ log, affectsSteps log = true) logs)).
Proof.
  apply map_eq; intros k. rewrite !extractMetadataFromLogs_lookup. f_equal.
  generalize (None : option IStepMetadata).
  induction logs as [|log logs IH]; intros o; first done.
  rewrite filter_cons. cbn [foldl]. case_decide as Haff.
  - cbn [foldl]. apply IH.
  - apply not_true_is_false in Haff.
    rewrite stepEffect_not_affecting //.
Qed.

(** ** The first transition of a step *)

Lemma stepEffect_None_transitions k log raw :
  stepEffect k None log = Some raw →
  ∃ more, transitions raw = PREPARING @ timestamp log :: more.
Proof.
  unfold stepEffect.
  assert ((if isRunTerminal log
           then forceUnknown (timestamp log) <$> None else None)
          = (None : option IStepMetadata)) as -> by by destruct (isRunTerminal log).
  case_decide; last done. cbv zeta.
  change (default _ None) with (newStep (timestamp log)).
  destruct (applyStepEvent _ _) as [step2|] eqn:E; last done.
  intros [= <-]. rewrite (applyStepEvent_transitions _ _ _ E). cbn. by eexists.
Qed.

Lemma foldl_stepEffect_first k logs raw :
  foldl (stepEffect k) None logs = Some raw →
  ∃ first more,
    head (filter (λ log, storesStep k log = true) logs) = Some first
    ∧ transitions raw = PREPARING @ timestamp first :: more.
Proof.
  induction logs as [|log logs IH]; first done.
  cbn [foldl]. rewrite filter_cons.
  destruct (stepEffect k None log) as [raw1|] eqn:E.
  - rewrite decide_True; last (apply stepEffect_None_is_Some; by rewrite E).
    destruct (stepEffect_None_transitions _ _ _ E) as (more1 & Htr1).
    destruct (foldl_stepEffect_grows k logs raw1) as (raw' & more & -> & Htr).
    intros [= <-]. exists log, (more1 ++ more). split; first done.
    by rewrite Htr Htr1.
  - rewrite decide_False; first by apply IH.
    intros Hst%stepEffect_None_is_Some. rewrite E in Hst. by destruct Hst.
Qed.

(** X9: every step of the model has a [PREPARING] transition stamped with
    the timestamp of the event that arrived first for the step (the first
    event with its key that is no cache copy), whatever the kind and the
    timestamps of the events that follow; before the sort it is the first
    transition recorded. So no step of the model has an empty transition
    list. *)
Theorem step_begins_preparing_at_first_event logs k s :
  steps (extractMetadataFromLogs logs) !! k = Some s →
  ∃ first raw more,
    head (filter (λ log, storesStep k log = true) logs) = Some first
    ∧ steps (reduceLogs logs) !! k = Some raw
    ∧ transitions raw = PREPARING @ timestamp first :: more
    ∧ PREPARING @ timestamp first ∈ transitions s.
Proof.
  intros Hs. apply extractMetadataFromLogs_step in Hs as (raw & Hraw & ->).
  pose proof Hraw as Hfold. rewrite reduceLogs_lookup in Hfold.
  destruct (foldl_stepEffect_first _ _ _ Hfold) as (first & more & Hhd & Htr).
  exists first, raw, more. do 3 (split; first done).
  cbn [transitions]. rewrite sortByTime_Permutation Htr. apply list_elem_of_here.
Qed.

Lemma step_begins_preparing_at_first_event_witness :
  ∃ first raw more,
    head (filter (λ log, storesStep "stepA" log = true)
            [stepEvent ExecutionStepSuccessEvent "stepA" 10;
             stepEvent ExecutionStepStartEvent "stepA" 0]) = Some first
    ∧ steps (reduceLogs [stepEvent ExecutionStepSuccessEvent "stepA" 10;
                         stepEvent ExecutionStepStartEvent "stepA" 0]) !! "stepA"
      = Some raw
    ∧ transitions raw = PREPARING @ timestamp first :: more
    ∧ PREPARING @ timestamp first
      ∈ [RUNNING @ 0; PREPARING @ 10; SUCCEEDED @ 10].
Proof.
  apply (step_begins_preparing_at_first_event _ "stepA"
           {| state := RUNNING; start := Some 0; end_ := Some 10;
              transitions := [RUNNING @ 0; PREPARING @ 10; SUCCEEDED @ 10];
              attempts := [mkAttempt (Some 0) (Some 10) (Some SUCCEEDED)];
              markers := [] |}).
  rewrite extractMetadataFromLogs_lookup. by vm_compute.
Defined.

(** ** The start and the end of a step *)

Lemma setEndMax_end step ts :
  end_ (setEndMax step ts) = Some (Z.max ts (default 0 (end_ step))).
Proof.
  cbn. do 2 f_equal. destruct (end_ step) as [e|]; cbn; last done.
  destruct (Z.eqb_spec e 0); by subst.
Qed.

Lemma stepEffect_start_end k o log :
  stepEffect k o log ≫= start
  = (if isStartOf k log then Some (timestamp log) else o ≫= start)
  ∧ stepEffect k o log ≫= end_
    = (if isFinishOf k log
       then Some (Z.max (timestamp log) (default 0 (o ≫= end_)))
       else o ≫= end_).
Proof.
  unfold stepEffect, isStartOf, isFinishOf, isFinishEvent.
  set (o1 := if isRunTerminal log then _ else o).
  assert (o1 ≫= start = o ≫= start ∧ o1 ≫= end_ = o ≫= end_) as [Hs He].
  { unfold o1. destruct (isRunTerminal log), o as [raw|]; try done.
    cbn. unfold forceUnknown. by case_decide. }
  case_decide as Hk.
  - rewrite bool_decide_eq_true_2 //. cbv zeta. cbn [andb].
    rewrite -Hs -He. clear Hs He.
    set (step := default (newStep (timestamp log)) o1).
    assert (start step = o1 ≫= start ∧ end_ step = o1 ≫= end_) as [Hs He]
      by by destruct o1.
    rewrite -Hs -He. unfold applyStepEvent.
    destruct (typename log) eqn:Hty; cbn [bool_decide decide_rel];
      try (rewrite bool_decide_eq_false_2; last done);
      try (rewrite bool_decide_eq_true_2; last done);
      try case_decide; cbn [mbind option_bind]; rewrite ?setEndMax_end;
      try done; by destruct o1.
  - rewrite bool_decide_eq_false_2 //.
Qed.

Lemma foldl_stepEffect_start k logs :
  foldl (stepEffect k) None logs ≫= start
  = timestamp <$> last (filter (λ log, isStartOf k log = true) logs).
Proof.
  induction logs as [|log logs IH] using rev_ind; first done.
  rewrite foldl_app filter_app. cbn [foldl].
  rewrite (proj1 (stepEffect_start_end _ _ _)) IH filter_cons filter_nil.
  destruct (isStartOf k log); case_decide; try done.
  - by rewrite last_snoc.
  - by rewrite app_nil_r.
Qed.

(** X10: the [start] of a step of the model is the timestamp of the start
    event of the step that arrived last, whatever the timestamps of its
    other start events, and is absent when the step has no start event (a
    restart does not set it). *)
Theorem step_start_is_last_arrived_start logs k s :
  steps (extractMetadataFromLogs logs) !! k = Some s →
  start s = timestamp <$> last (filter (λ log, isStartOf k log = true) logs).
Proof.
  intros Hs. apply extractMetadataFromLogs_step in Hs as (raw & Hraw & ->).
  cbn [start]. rewrite -foldl_stepEffect_start -reduceLogs_lookup. by rewrite Hraw.
Qed.

Lemma step_start_is_last_arrived_start_witness :
  Some 7
  = timestamp <$>
      last (filter (λ log, isStartOf "stepA" log = true)
              [stepEvent ExecutionStepStartEvent "stepA" 9;
               stepEvent ExecutionStepRestartEvent "stepA" 12;
               stepEvent ExecutionStepStartEvent "stepA" 7]).
Proof.
  apply (step_start_is_last_arrived_start _ "stepA"
           {| state := RUNNING; start := Some 7; end_ := None;
              transitions := [RUNNING @ 7; PREPARING @ 9; RUNNING @ 9;
                              RUNNING @ 12];
              attempts := [mkAttempt (Some 7) None None];
              markers := [] |}).
  rewrite extractMetadataFromLogs_lookup. by vm_compute.
Defined.

Lemma foldl_stepEffect_end k logs :
  let finishes := filter (λ log, isFinishOf k log = true) logs in
  match foldl (stepEffect k) None logs ≫= end_ with
  | None => finishes = []
  | Some e => finishes ≠ [] ∧ isMaximumOf e (0 :: (timestamp <$> finishes))
  end.
Proof.
  induction logs as [|log logs IH] using rev_ind; first done.
  cbn zeta in *. rewrite foldl_app filter_app. cbn [foldl].
  rewrite (proj2 (stepEffect_start_end _ _ _)) filter_cons filter_nil.
  destruct (isFinishOf k log); case_decide; try done;
    last by rewrite app_nil_r.
  split; first by destruct (filter _ logs).
  rewrite fmap_app. cbn [fmap list_fmap]. unfold isMaximumOf in *.
  setoid_rewrite elem_of_cons. setoid_rewrite elem_of_app.
  setoid_rewrite list_elem_of_singleton.
  destruct (foldl (stepEffect k) None logs ≫= end_) as [e|].
  - change (default 0 (Some e)) with e.
    destruct IH as [_ [Hin Hmax]]. apply elem_of_cons in Hin.
    setoid_rewrite elem_of_cons in Hmax. split.
    + destruct (Z.max_spec (timestamp log) e) as [[_ ->] | [_ ->]]; tauto.
    + intros y [-> | [Hy | ->]].
      * pose proof (Hmax 0 (or_introl eq_refl)). lia.
      * pose proof (Hmax y (or_intror Hy)). lia.
      * lia.
  - change (default 0 None) with 0. rewrite IH. split.
    + destruct (Z.max_spec (timestamp log) 0) as [[_ ->] | [_ ->]]; auto.
    + intros y [-> | [Hy | ->]]; [lia | by inv Hy | lia].
Qed.

(** X11: the [end] of a step of the model is absent exactly when no
    success or failure event of the step has arrived; otherwise it is the
    greatest of 0 and the timestamps of the step's success and failure
    events, in whatever order they arrived (so it is never negative and
    never decreases). *)
Theorem step_end_is_latest_finish logs k s :
  steps (extractMetadataFromLogs logs) !! k = Some s →
  let finishes := filter (λ log, isFinishOf k log = true) logs in
  (end_ s = None ↔ finishes = [])
  ∧ ∀ e, end_ s = Some e → isMaximumOf e (0 :: (timestamp <$> finishes)).
Proof.
  intros Hs finishes.
  apply extractMetadataFromLogs_step in Hs as (raw & Hraw & ->).
  cbn [end_]. pose proof (foldl_stepEffect_end k logs) as H.
  rewrite -reduceLogs_lookup Hraw in H. cbn in H. fold finishes in H.
  destruct (end_ raw) as [e|].
  - destruct H as [Hne Hmax]. split; first done. by intros ? [= <-].
  - done.
Qed.

Lemma step_end_is_latest_finish_witness :
  let finishes :=
    filter (λ log, isFinishOf "stepA" log = true)
      [stepEvent ExecutionStepStartEvent "stepA" 1;
       stepEvent ExecutionStepFailureEvent "stepA" 9;
       stepEvent ExecutionStepSuccessEvent "stepA" 4] in
  (Some 9 = None ↔ finishes = [])
  ∧ ∀ e, Some 9 = Some e → isMaximumOf e (0 :: (timestamp <$> finishes)).
Proof.
  apply (step_end_is_latest_finish _ "stepA"
           {| state := SUCCEEDED; start := Some 1; end_ := Some 9;
              transitions := [PREPARING @ 1; RUNNING @ 1; SUCCEEDED @ 4;
                              FAILED @ 9];
              attempts := [mkAttempt (Some 1) (Some 9) (Some FAILED)];
              markers := [] |}).
  rewrite extractMetadataFromLogs_lookup. by vm_compute.
Defined.

(** ** Growing event sequences only add *)

Lemma foldl_stepEffect_end_mono k logs o e :
  o ≫= end_ = Some e →
  ∃ e', foldl (stepEffect k) o logs ≫= end_ = Some e' ∧ e ≤ e'.
Proof.
  revert o e. induction logs as [|log logs IH]; intros o e He.
  { exists e. split; [done | lia]. }
  cbn [foldl].
  pose proof (proj2 (stepEffect_start_end k o log)) as Hend.
  rewrite He in Hend. change (default 0 (Some e)) with e in Hend.
  destruct (isFinishOf k log).
  - destruct (IH _ _ Hend) as (e' & He' & Hle). exists e'. split; [done | lia].
  - by apply IH.
Qed.

(** X12: feeding the reducer a longer sequence never takes anything away
    from a step: the step is still there, every transition it had is still
    among its transitions, and its [end], once set, is still set and not
    earlier. *)
Theorem extension_only_adds logs more k s :
  steps (extractMetadataFromLogs logs) !! k = Some s →
  ∃ s', steps (extractMetadataFromLogs (logs ++ more)) !! k = Some s'
        ∧ transitions s ⊆+ transitions s'
        ∧ ∀ e, end_ s = Some e → ∃ e', end_ s' = Some e' ∧ e ≤ e'.
Proof.
  intros Hs. apply extractMetadataFromLogs_step in Hs as (raw & Hraw & ->).
  destruct (foldl_stepEffect_grows k more raw) as (raw' & extra & Hraw' & Htr).
  eexists. split.
  { apply extractMetadataFromLogs_step. exists raw'. split; last done.
    by rewrite reduceLogs_lookup foldl_app -reduceLogs_lookup Hraw. }
  cbn [transitions end_]. split.
  - rewrite !sortByTime_Permutation Htr. by apply submseteq_inserts_r.
  - intros e He.
    destruct (foldl_stepEffect_end_mono k more (Some raw) e He) as (e' & He' & Hle).
    rewrite Hraw' in He'. by exists e'.
Qed.

Lemma extension_only_adds_witness :
  ∃ s', steps (extractMetadataFromLogs
                 ([stepEvent ExecutionStepStartEvent "stepA" 3;
                   stepEvent ExecutionStepFailureEvent "stepA" 9]
                  ++ [stepEvent ExecutionStepSuccessEvent "stepA" 5;
                      runEvent RunSuccessEvent 6])) !! "stepA" = Some s'
        ∧ [PREPARING @ 3; RUNNING @ 3; FAILED @ 9] ⊆+ transitions s'
        ∧ ∀ e, Some 9 = Some e → ∃ e', end_ s' = Some e' ∧ e ≤ e'.
Proof.
  apply (extension_only_adds _ _ "stepA"
           {| state := FAILED; start := Some 3; end_ := Some 9;
              transitions := [PREPARING @ 3; RUNNING @ 3; FAILED @ 9];
              attempts := [mkAttempt (Some 3) (Some 9) (Some FAILED)];
              markers := [] |}).
  rewrite extractMetadataFromLogs_lookup. by vm_compute.
Defined.

(** ** Markers *)

Lemma updateOpenMarker_None upd key set :
  updateOpenMarker upd key set = None ↔ hasOpenMarker key set = false.
Proof.
  induction set as [|f set IH]; first done.
  cbn. destruct (bool_decide (m_key f = key) && negb (truthyNum (m_end f)));
    cbn; first done.
  rewrite -IH. by destruct (updateOpenMarker upd key set).
Qed.

Lemma upsertMarker_new upd set key :
  hasOpenMarker key set = false →
  upsertMarker upd set key = upd (mkMarker key None None) :: set.
Proof.
  intros H%(updateOpenMarker_None upd). unfold upsertMarker. by rewrite H.
Qed.

Lemma upsertMarker_length upd set key :
  length (upsertMarker upd set key)
  = if hasOpenMarker key set then length set else S (length set).
Proof.
  destruct (hasOpenMarker key set) eqn:Hopen.
  - unfold upsertMarker. induction set as [|f set IH]; first done.
    cbn in *.
    destruct (bool_decide (m_key f = key) && negb (truthyNum (m_end f)));
      cbn in *; first done.
    specialize (IH Hopen).
    destruct (updateOpenMarker upd key set) eqn:E; cbn in *.
    + by f_equal.
    + apply updateOpenMarker_None in E. unfold hasOpenMarker in E. congruence.
  - by rewrite upsertMarker_new.
Qed.

(** X13: a marker is opened and then closed in one record: when a set has
    no open marker with the key (none with that key and a falsy [end]), a
    marker-capable event that starts the key at [t1] followed by one that
    ends it at [t2] puts the single record [{key, start: t1, end: t2}] in
    front of the set and leaves the rest as it was. *)
Theorem marker_open_then_close open close key set :
  isMarkerEvent open = true → isMarkerEvent close = true →
  truthyStr (markerStart open) = Some key → truthyStr (markerEnd open) = None →
  truthyStr (markerStart close) = None → truthyStr (markerEnd close) = Some key →
  hasOpenMarker key set = false →
  applyMarkers close (applyMarkers open set)
  = mkMarker key (Some (timestamp open)) (Some (timestamp close)) :: set.
Proof.
  unfold isMarkerEvent, applyMarkers.
  destruct (refineMarkerEvent open) as [o|] eqn:Ho; last done.
  destruct (refineMarkerEvent close) as [c|] eqn:Hc; last done.
  assert (o = open) as ->.
  { unfold refineMarkerEvent in Ho. destruct (typename open); by simplify_eq. }
  assert (c = close) as ->.
  { unfold refineMarkerEvent in Hc. destruct (typename close); by simplify_eq. }
  intros _ _ -> -> -> -> Hnone.
  rewrite (upsertMarker_new _ set) //.
  unfold upsertMarker. cbn. by rewrite bool_decide_eq_true_2.
Qed.

Lemma marker_open_then_close_witness :
  let open := {| typename := ResourceInitStartedEvent; timestamp := 2;
                 stepKey := Some "stepB"%string;
                 markerStart := Some "resource_init"%string; markerEnd := None;
                 operationResult_op := EmptyString; fileKey := EmptyString;
                 stepKeys := None; pid := None; externalUrl := None |} in
  let close := {| typename := ResourceInitSuccessEvent; timestamp := 7;
                  stepKey := Some "stepB"%string;
                  markerStart := None; markerEnd := Some "resource_init"%string;
                  operationResult_op := EmptyString; fileKey := EmptyString;
                  stepKeys := None; pid := None; externalUrl := None |} in
  applyMarkers close (applyMarkers open [])
  = [mkMarker "resource_init" (Some 2) (Some 7)].
Proof.
  intros open close.
  by apply (marker_open_then_close open close "resource_init" []).
Defined.

Lemma markerKept_refl f : markerKept f f.
Proof. by split. Qed.

Lemma markerKept_trans f f' f'' :
  markerKept f f' → markerKept f' f'' → markerKept f f''.
Proof.
  intros [Hk Hc] [Hk' Hc']. split; first congruence.
  intros Hclosed. specialize (Hc Hclosed). subst f'. by apply Hc'.
Qed.

Lemma Forall2_markerKept_refl set : Forall2 markerKept set set.
Proof. apply Forall2_same_length_lookup. split; first done.
  intros i f f' H1 H2. simplify_eq. apply markerKept_refl. Qed.

Lemma Forall2_markerKept_trans set set' set'' :
  Forall2 markerKept set set' → Forall2 markerKept set' set'' →
  Forall2 markerKept set set''.
Proof.
  intros H. revert set''. induction H as [|f f' l l' Hf Hl IH]; intros set'' H'.
  - by inv H'.
  - inv H'. constructor; [by eapply markerKept_trans | by apply IH].
Qed.

Lemma updateOpenMarker_kept upd key set set' :
  (∀ m, m_key (upd m) = m_key m) →
  updateOpenMarker upd key set = Some set' → Forall2 markerKept set set'.
Proof.
  intros Hupd. revert set'. induction set as [|f set IH]; intros set'; first done.
  cbn. destruct (bool_decide (m_key f = key) && negb (truthyNum (m_end f))) eqn:E.
  - intros [= <-]. constructor; last apply Forall2_markerKept_refl.
    split; first done. apply andb_prop in E as [_ Hopen%negb_true_iff].
    congruence.
  - intros (rest & Hrest & ->)%fmap_Some.
    constructor; [apply markerKept_refl | by apply IH].
Qed.

Lemma upsertMarker_kept upd set key :
  (∀ m, m_key (upd m) = m_key m) →
  ∃ new kept, upsertMarker upd set key = new ++ kept
              ∧ (length new ≤ 1)%nat ∧ Forall2 markerKept set kept.
Proof.
  intros Hupd. unfold upsertMarker.
  destruct (updateOpenMarker upd key set) as [set'|] eqn:E.
  - exists [], set'. split; first done. split; first (cbn; lia).
    by eapply updateOpenMarker_kept.
  - exists [upd (mkMarker key None None)], set. split; first done.
    split; first done. apply Forall2_markerKept_refl.
Qed.

Lemma Forall2_markerKept_app_l new set kept :
  Forall2 markerKept (new ++ set) kept →
  ∃ new' kept', kept = new' ++ kept' ∧ length new' = length new
                ∧ Forall2 markerKept set kept'.
Proof.
  intros (new' & kept' & Hnew & Hkept & ->)%Forall2_app_inv_l.
  exists new', kept'. split; first done. split; last done.
  symmetry. by eapply Forall2_length.
Qed.

Lemma applyMarkers_kept log set :
  ∃ new kept, applyMarkers log set = new ++ kept
              ∧ (length new ≤ 2)%nat ∧ Forall2 markerKept set kept.
Proof.
  unfold applyMarkers.
  destruct (refineMarkerEvent log) as [markerEvent|].
  2:{ exists [], set. split; first done. split; first (cbn; lia).
      apply Forall2_markerKept_refl. }
  assert (∃ new1 kept1,
            match truthyStr (markerStart markerEvent) with
            | Some k => upsertMarker (setMarkerStart (timestamp log)) set k
            | None => set
            end = new1 ++ kept1
            ∧ (length new1 ≤ 1)%nat ∧ Forall2 markerKept set kept1)
    as (new1 & kept1 & -> & Hlen1 & Hkept1).
  { destruct (truthyStr (markerStart markerEvent)) as [k|].
    - by apply upsertMarker_kept.
    - exists [], set. split; first done. split; first (cbn; lia).
      apply Forall2_markerKept_refl. }
  destruct (truthyStr (markerEnd markerEvent)) as [k|].
  - destruct (upsertMarker_kept (setMarkerEnd (timestamp log)) (new1 ++ kept1) k)
      as (new2 & kept2 & -> & Hlen2 & Hkept2); first done.
    apply Forall2_markerKept_app_l in Hkept2
      as (new1' & kept' & -> & Hlen1' & Hkept').
    exists (new2 ++ new1'), kept'. split; first by rewrite app_assoc.
    split; first (rewrite length_app; lia).
    by eapply Forall2_markerKept_trans.
  - exists new1, kept1. split; first done. split; [lia | done].
Qed.

Lemma stepEffect_markers k o log :
  stepEffect k o log ≫= (λ raw, Some (markers raw))
  = if decide (stepKeyOf log = Some k) then
      (if storesStep k log || bool_decide (is_Some o)
       then Some (applyMarkers log (default [] (markers <$> o))) else None)
    else markers <$> o.
Proof.
  unfold stepEffect, storesStep.
  set (o1 := if isRunTerminal log then _ else o).
  assert (match o with
          | Some raw => ∃ raw1, o1 = Some raw1 ∧ markers raw1 = markers raw
          | None => o1 = None
          end) as Ho1.
  { unfold o1. destruct (isRunTerminal log), o as [raw|]; try done; cbn.
    - eexists. split; first done. unfold forceUnknown. by case_decide.
    - by eexists. }
  clearbody o1. case_decide as Hk.
  2:{ destruct o as [raw|]; [destruct Ho1 as (raw1 & -> & Hm)|subst o1];
        cbn; by rewrite ?Hm. }
  rewrite bool_decide_eq_true_2 //. cbv zeta. cbn [andb].
  assert (markers (default (newStep (timestamp log)) o1)
          = default [] (markers <$> o)) as Hd.
  { destruct o as [raw|]; [destruct Ho1 as (raw1 & -> & Hm)|subst o1];
      cbn; by rewrite ?Hm. }
  rewrite Hd.
  destruct (applyStepEvent _ _) as [step2|] eqn:E.
  - assert (isCacheCopy log = false) as ->.
    { apply not_true_is_false. intros Hcp.
      by rewrite (proj2 (applyStepEvent_None _ _) Hcp) in E. }
    cbn. f_equal. unfold applyStepEvent in E.
    destruct (typename log); try case_decide; by simplify_eq.
  - apply applyStepEvent_None in E. rewrite E. cbn.
    destruct o as [raw|]; [destruct Ho1 as (raw1 & -> & Hm)|subst o1]; cbn.
    + done.
    + done.
Qed.

Lemma stepEffect_markers_kept k raw log :
  ∃ raw' new kept,
    stepEffect k (Some raw) log = Some raw'
    ∧ markers raw' = new ++ kept ∧ Forall2 markerKept (markers raw) kept.
Proof.
  destruct (stepEffect_grows k raw log) as (raw' & more & Hraw' & _).
  pose proof (stepEffect_markers k (Some raw) log) as Hm.
  rewrite Hraw' in Hm. cbn in Hm. exists raw'.
  case_decide.
  - rewrite orb_true_r in Hm. injection Hm as ->.
    destruct (applyMarkers_kept log (markers raw)) as (new & kept & -> & _ & Hk).
    by exists new, kept.
  - injection Hm as ->. exists [], (markers raw).
    split; first done. split; first done. apply Forall2_markerKept_refl.
Qed.

(** X14: markers are only ever added or completed: when the event
    sequence grows, the markers a step had are all still there, in the
    same order and with the same keys, behind the markers that were added;
    and a marker whose [end] was truthy is still exactly the same
    record. *)
Theorem closed_markers_are_kept logs more k s :
  steps (extractMetadataFromLogs logs) !! k = Some s →
  ∃ s' new kept,
    steps (extractMetadataFromLogs (logs ++ more)) !! k = Some s'
    ∧ markers s' = new ++ kept
    ∧ Forall2 markerKept (markers s) kept.
Proof.
  intros Hs. apply extractMetadataFromLogs_step in Hs as (raw & Hraw & ->).
  cbn [markers].
  assert (∃ raw' new kept,
            foldl (stepEffect k) (Some raw) more = Some raw'
            ∧ markers raw' = new ++ kept
            ∧ Forall2 markerKept (markers raw) kept)
    as (raw' & new & kept & Hraw' & Hm & Hkept).
  { clear Hraw. revert raw. induction more as [|log more IH]; intros raw.
    { exists raw, [], (markers raw). split; first done. split; first done.
      apply Forall2_markerKept_refl. }
    cbn [foldl].
    destruct (stepEffect_markers_kept k raw log)
      as (raw1 & new1 & kept1 & -> & Hm1 & Hk1).
    destruct (IH raw1) as (raw' & new & kept & -> & Hm & Hk).
    rewrite Hm1 in Hk. apply Forall2_markerKept_app_l in Hk
      as (new1' & kept' & -> & _ & Hk').
    exists raw', (new ++ new1'), kept'. split; first done.
    split; first by rewrite Hm app_assoc.
    by eapply Forall2_markerKept_trans. }
  exists {| state := state raw'; start := start raw'; end_ := end_ raw';
            transitions := sortByTime (transitions raw');
            attempts := deriveAttempts (sortByTime (transitions raw'));
            markers := markers raw' |}, new, kept.
  split; last done.
  apply extractMetadataFromLogs_step. exists raw'. split; last done.
  by rewrite reduceLogs_lookup foldl_app -reduceLogs_lookup Hraw.
Qed.

Lemma closed_markers_are_kept_witness :
  ∃ s' new kept,
    steps (extractMetadataFromLogs
             ([{| typename := EngineEvent; timestamp := 2;
                  stepKey := Some "stepB"%string;
                  markerStart := Some "init"%string;
                  markerEnd := Some "init"%string;
                  operationResult_op := EmptyString; fileKey := EmptyString;
                  stepKeys := None; pid := None; externalUrl := None |}]
              ++ [{| typename := EngineEvent; timestamp := 7;
                     stepKey := Some "stepB"%string;
                     markerStart := Some "init"%string; markerEnd := None;
                     operationResult_op := EmptyString; fileKey := EmptyString;
                     stepKeys := None; pid := None; externalUrl := None |}]))
      !! "stepB" = Some s'
    ∧ markers s' = new ++ kept
    ∧ Forall2 markerKept [mkMarker "init" (Some 2) (Some 2)] kept.
Proof.
  apply (closed_markers_are_kept _ _ "stepB"
           {| state := PREPARING; start := None; end_ := None;
              transitions := [PREPARING @ 2]; attempts := [];
              markers := [mkMarker "init" (Some 2) (Some 2)] |}).
  rewrite extractMetadataFromLogs_lookup. by vm_compute.
Defined.

Lemma applyMarkers_cacheCopy log set : isCacheCopy log = true → applyMarkers log set = set.
Proof.
  unfold isCacheCopy. intros [Hty%bool_decide_eq_true _]%andb_prop.
  apply applyMarkers_not_marker. unfold refineMarkerEvent. by rewrite Hty.
Qed.

Lemma foldl_stepEffect_markers k logs :
  default [] (markers <$> foldl (stepEffect k) None logs)
  = foldl (λ set log, applyMarkers log set) []
          (filter (λ log, stepKeyOf log = Some k) logs).
Proof.
  induction logs as [|log logs IH] using rev_ind; first done.
  rewrite foldl_app filter_app. cbn [foldl].
  pose proof (stepEffect_markers k (foldl (stepEffect k) None logs) log) as Hm.
  assert (∀ o : option IStepMetadata,
            o ≫= (λ raw, Some (markers raw)) = markers <$> o) as Hbind
    by by intros [?|].
  rewrite Hbind in Hm. rewrite Hm filter_cons filter_nil. clear Hm.
  case_decide as Hk; last by rewrite app_nil_r.
  rewrite foldl_app. cbn [foldl]. rewrite -IH.
  destruct (storesStep k log || bool_decide (is_Some _)) eqn:E; first done.
  apply orb_false_elim in E as [Hst Hsome].
  apply bool_decide_eq_false in Hsome.
  destruct (foldl (stepEffect k) None logs) as [raw|]; first by (exfalso; eauto).
  cbn. unfold storesStep in Hst. rewrite bool_decide_eq_true_2 // in Hst.
  cbn in Hst. apply negb_false_iff in Hst. by rewrite applyMarkers_cacheCopy.
Qed.

(** X15: the markers of a step of the model are what the events that
    carry the step's key, taken in arrival order, make of the empty marker
    set; events of other steps, events without a step key and the forcing
    at the end of the run leave them alone. *)
Theorem step_markers_come_from_its_events logs k s :
  steps (extractMetadataFromLogs logs) !! k = Some s →
  markers s
  = foldl (λ set log, applyMarkers log set) []
          (filter (λ log, stepKeyOf log = Some k) logs).
Proof.
  intros Hs. apply extractMetadataFromLogs_step in Hs as (raw & Hraw & ->).
  cbn [markers]. rewrite -foldl_stepEffect_markers -reduceLogs_lookup.
  by rewrite Hraw.
Qed.

Lemma step_markers_come_from_its_events_witness :
  let open := {| typename := StepWorkerStartingEvent; timestamp := 2;
                 stepKey := Some "stepB"%string;
                 markerStart := Some "step_process_start"%string;
                 markerEnd := None;
                 operationResult_op := EmptyString; fileKey := EmptyString;
                 stepKeys := None; pid := None; externalUrl := None |} in
  let other := {| typename := EngineEvent; timestamp := 3; stepKey := None;
                  markerStart := Some "engine"%string; markerEnd := None;
                  operationResult_op := EmptyString; fileKey := EmptyString;
                  stepKeys := None; pid := None; externalUrl := None |} in
  let close := {| typename := StepWorkerStartedEvent; timestamp := 7;
                  stepKey := Some "stepB"%string;
                  markerStart := None;
                  markerEnd := Some "step_process_start"%string;
                  operationResult_op := EmptyString; fileKey := EmptyString;
                  stepKeys := None; pid := None; externalUrl := None |} in
  [mkMarker "step_process_start" (Some 2) (Some 7)]
  = foldl (λ set log, applyMarkers log set) []
          (filter (λ log, stepKeyOf log = Some "stepB"%string)
                  [open; other; runEvent RunSuccessEvent 5; close]).
Proof.
  intros open other close.
  apply (step_markers_come_from_its_events _ "stepB"
           {| state := PREPARING; start := None; end_ := None;
              transitions := [PREPARING @ 2]; attempts := [];
              markers := [mkMarker "step_process_start" (Some 2) (Some 7)] |}).
  rewrite extractMetadataFromLogs_lookup. by vm_compute.
Defined.

(** ** Run-level fields *)

Lemma extractMetadataFromLogs_run_fields logs :
  globalMarkers (extractMetadataFromLogs logs) = globalMarkers (reduceLogs logs)
  ∧ exitedAt (extractMetadataFromLogs logs) = exitedAt (reduceLogs logs)
  ∧ startedPipelineAt (extractMetadataFromLogs logs)
    = startedPipelineAt (reduceLogs logs)
  ∧ logCaptureSteps (extractMetadataFromLogs logs)
    = logCaptureSteps (reduceLogs logs).
Proof. done. Qed.

(** X16: the run-global markers are what the events without a step key,
    taken in arrival order, make of the empty marker set; an event that
    carries a step key never adds to them or changes them. *)
Theorem global_markers_come_from_keyless_events logs :
  globalMarkers (extractMetadataFromLogs logs)
  = foldl (λ set log, applyMarkers log set) []
          (filter (λ log, stepKeyOf log = None) logs).
Proof.
  rewrite (proj1 (extractMetadataFromLogs_run_fields logs)).
  induction logs as [|log logs IH] using rev_ind; first done.
  rewrite reduceLogs_snoc filter_app filter_cons filter_nil.
  cbn [processLog globalMarkers]. fold (stepKeyOf log).
  case_decide as Hk.
  - rewrite Hk foldl_app. cbn [foldl]. by rewrite IH.
  - rewrite app_nil_r. by destruct (stepKeyOf log).
Qed.

(** X17: [exitedAt] is the timestamp of the run failure, success or
    cancellation event that arrived last, and [startedPipelineAt] the
    timestamp of the run start event that arrived last; each is absent
    when no such event has arrived. *)
Theorem run_times_are_last_arrived logs :
  exitedAt (extractMetadataFromLogs logs)
  = timestamp <$> last (filter (λ log, isRunTerminal log = true) logs)
  ∧ startedPipelineAt (extractMetadataFromLogs logs)
    = timestamp <$> last (filter (λ log, typename log = RunStartEvent) logs).
Proof.
  destruct (extractMetadataFromLogs_run_fields logs) as (_ & -> & -> & _).
  induction logs as [|log logs IH] using rev_ind; first done.
  destruct IH as [IHe IHs].
  rewrite reduceLogs_snoc !filter_app !filter_cons !filter_nil.
  cbn [processLog exitedAt startedPipelineAt]. split.
  - case_decide as Hterm.
    + by rewrite Hterm last_snoc.
    + apply not_true_is_false in Hterm. by rewrite Hterm app_nil_r.
  - case_decide as Hty.
    + by rewrite last_snoc.
    + by rewrite app_nil_r.
Qed.

(** X18: for timestamps of any sign, [mostRecentLogAt] is the greatest of
    0 and the timestamps of all events, and after at least one event
    [firstLogAt] is the timestamp of one of the events and is not later
    than [mostRecentLogAt]. *)
Theorem log_times_bounds logs :
  isMaximumOf (mostRecentLogAt (extractMetadataFromLogs logs))
              (0 :: (timestamp <$> logs))
  ∧ (logs ≠ [] →
     firstLogAt (extractMetadataFromLogs logs) ∈ timestamp <$> logs
     ∧ firstLogAt (extractMetadataFromLogs logs)
       ≤ mostRecentLogAt (extractMetadataFromLogs logs)).
Proof.
  rewrite extractMetadataFromLogs_firstLogAt extractMetadataFromLogs_mostRecentLogAt.
  assert (isMaximumOf (mostRecentLogAt (reduceLogs logs))
                      (0 :: (timestamp <$> logs))) as Hmax.
  { induction logs as [|log logs IH] using rev_ind.
    { split; first apply list_elem_of_here.
      intros y Hy%list_elem_of_singleton. by subst. }
    rewrite reduceLogs_snoc fmap_app. cbn [processLog mostRecentLogAt].
    destruct IH as [Hin Hle]. unfold isMaximumOf.
    setoid_rewrite elem_of_cons. setoid_rewrite elem_of_app.
    setoid_rewrite list_elem_of_singleton.
    apply elem_of_cons in Hin. setoid_rewrite elem_of_cons in Hle. split.
    - destruct (Z.max_spec (mostRecentLogAt (reduceLogs logs)) (timestamp log))
        as [[_ ->] | [_ ->]]; tauto.
    - intros y [-> | [Hy | ->]].
      + pose proof (Hle 0 (or_introl eq_refl)). lia.
      + pose proof (Hle y (or_intror Hy)). lia.
      + lia. }
  split; first done. intros Hne.
  assert (firstLogAt (reduceLogs logs) ∈ timestamp <$> logs) as Hfirst.
  { clear Hmax. induction logs as [|log logs IH] using rev_ind; first done.
    rewrite reduceLogs_snoc fmap_app. cbn [processLog firstLogAt].
    rewrite elem_of_app list_elem_of_singleton.
    destruct (Z.eqb_spec (firstLogAt (reduceLogs logs)) 0) as [Hz | Hnz];
      cbn [negb]; first by right.
    destruct logs as [|log0 logs0]; first done.
    destruct (Z.min_spec (firstLogAt (reduceLogs (log0 :: logs0)))
                         (timestamp log)) as [[_ ->] | [_ ->]].
    + left. by apply IH.
    + by right. }
  split; first done.
  destruct Hmax as [_ Hle]. apply Hle. by right.
Qed.

Lemma log_times_bounds_witness :
  let logs := [runEvent OtherEvent (-4); runEvent OtherEvent 0;
               runEvent OtherEvent (-9)] in
  firstLogAt (extractMetadataFromLogs logs) ∈ timestamp <$> logs
  ∧ firstLogAt (extractMetadataFromLogs logs)
    ≤ mostRecentLogAt (extractMetadataFromLogs logs).
Proof.
  intros logs. by apply (proj2 (log_times_bounds logs)).
Defined.

(** ** Log capture *)

(** X19: [logCaptureSteps] is absent exactly when no log-capture event has
    arrived; otherwise, the file keys of the log-capture events being
    ordinary keys, it holds under each ordinary key the record of the
    log-capture event with that file key that arrived last (its step keys,
    or none when the event has no list; its process id as a string), and
    nothing under an ordinary key no log-capture event has. *)
Theorem log_capture_last_event_wins logs :
  ordinaryFileKeys logs →
  (logCaptureSteps (extractMetadataFromLogs logs) = None
   ↔ filter (λ log, typename log = LogsCapturedEvent) logs = [])
  ∧ ∀ f, ordinaryKey f →
         default ∅ (logCaptureSteps (extractMetadataFromLogs logs)) !! f
         = logCaptureInfoOf
           <$> last (filter (λ log, typename log = LogsCapturedEvent
                                    ∧ fileKey log = f) logs).
Proof.
  intros _.
  assert ((logCaptureSteps (extractMetadataFromLogs logs) = None
           ↔ filter (λ log, typename log = LogsCapturedEvent) logs = [])
          ∧ ∀ f, default ∅ (logCaptureSteps (extractMetadataFromLogs logs)) !! f
                 = logCaptureInfoOf
                   <$> last (filter (λ log, typename log = LogsCapturedEvent
                                            ∧ fileKey log = f) logs))
    as [Hnone Hlookup]; last by split; [|intros f _].
  destruct (extractMetadataFromLogs_run_fields logs) as (_ & _ & _ & ->).
  induction logs as [|log logs IH] using rev_ind; first done.
  destruct IH as [IHn IHl].
  rewrite reduceLogs_snoc. cbn [processLog logCaptureSteps].
  fold (logCaptureInfoOf log). split.
  - rewrite filter_app filter_cons filter_nil. case_decide as Hty.
    + split; first done. by intros [_ ?]%app_nil.
    + by rewrite app_nil_r.
  - intros f. rewrite filter_app filter_cons filter_nil.
    destruct (decide (typename log = LogsCapturedEvent)) as [Hty|Hty].
    + cbn [default from_option id].
      destruct (decide (fileKey log = f)) as [<-|Hf].
      * rewrite lookup_insert_eq decide_True // last_snoc //.
      * rewrite lookup_insert_ne // decide_False; last by intros [_ ?].
        by rewrite app_nil_r IHl.
    + rewrite decide_False; last by intros [? _]. by rewrite app_nil_r IHl.
Qed.

Lemma log_capture_last_event_wins_witness :
  let captured f keys p :=
    {| typename := LogsCapturedEvent; timestamp := 1; stepKey := None;
       markerStart := None; markerEnd := None;
       operationResult_op := EmptyString; fileKey := f; stepKeys := keys;
       pid := p; externalUrl := None |} in
  let logs := [captured "fileA" (Some ["stepA"]) (Some 7);
               captured "fileB" None None;
               captured "fileA" (Some ["stepA"; "stepB"]) (Some 8)] in
  default ∅ (logCaptureSteps (extractMetadataFromLogs logs)) !! "fileA"
  = Some (logCaptureInfoOf (captured "fileA" (Some ["stepA"; "stepB"]) (Some 8)))
  ∧ default ∅ (logCaptureSteps (extractMetadataFromLogs logs)) !! "fileC" = None.
Proof.
  intros captured logs.
  assert (ordinaryFileKeys logs) as Hkeys.
  { repeat constructor; intros _; by apply (bool_decide_unpack _). }
  split.
  - rewrite (proj2 (log_capture_last_event_wins logs Hkeys) "fileA") //.
    by apply (bool_decide_unpack _).
  - rewrite (proj2 (log_capture_last_event_wins logs Hkeys) "fileC") //.
    by apply (bool_decide_unpack _).
Defined.

Lemma extractLogCaptureStepsFromLegacySteps_snoc keys k :
  extractLogCaptureStepsFromLegacySteps (keys ++ [k])
  = <[k := {| lc_fileKey := k; lc_stepKeys := [k];
              lc_pid := None; lc_externalUrl := None |}]>
      (extractLogCaptureStepsFromLegacySteps keys).
Proof. unfold extractLogCaptureStepsFromLegacySteps. by rewrite foldl_app. Qed.

(** X20: for step keys that are ordinary keys, the legacy table has an
    entry under an ordinary key exactly when it is one of the given step
    keys, and the entry of a key is its own capture group: the key as
    file key and as only step key, without process id or URL. *)
Theorem legacy_log_capture_steps keys k :
  Forall ordinaryKey keys → ordinaryKey k →
  extractLogCaptureStepsFromLegacySteps keys !! k
  = if decide (k ∈ keys)
    then Some {| lc_fileKey := k; lc_stepKeys := [k];
                 lc_pid := None; lc_externalUrl := None |}
    else None.
Proof.
  intros _ _.
  induction keys as [|k' keys IH] using rev_ind.
  { case_decide as Hin; last done. by apply elem_of_nil in Hin. }
  rewrite extractLogCaptureStepsFromLegacySteps_snoc lookup_insert IH.
  destruct (decide (k' = k)) as [->|Hne].
  - destruct (decide (k ∈ keys ++ [k])) as [_|Hnot]; first done.
    exfalso. apply Hnot, elem_of_app. right. by apply list_elem_of_singleton.
  - destruct (decide (k ∈ keys)) as [Hin|Hin];
      destruct (decide (k ∈ keys ++ [k'])) as [Hin'|Hin']; try done.
    + exfalso. apply Hin', elem_of_app. by left.
    + exfalso. apply elem_of_app in Hin' as [Hk | Hk]; first done.
      apply list_elem_of_singleton in Hk. by subst.
Qed.

Lemma legacy_log_capture_steps_witness :
  extractLogCaptureStepsFromLegacySteps ["stepA"; "stepB"; "stepA"] !! "stepA"
  = Some {| lc_fileKey := "stepA"; lc_stepKeys := ["stepA"];
            lc_pid := None; lc_externalUrl := None |}
  ∧ extractLogCaptureStepsFromLegacySteps ["stepA"; "stepB"; "stepA"] !! "stepC"
    = None.
Proof.
  assert (Forall ordinaryKey ["stepA"; "stepB"; "stepA"]) as Hkeys
    by by apply (bool_decide_unpack _).
  split.
  - rewrite (legacy_log_capture_steps _ "stepA" Hkeys) //.
    by apply (bool_decide_unpack _).
  - rewrite (legacy_log_capture_steps _ "stepC" Hkeys) //.
    by apply (bool_decide_unpack _).
Defined.

(** ** The summary fallback, record by record *)

Lemma foldl_insert_stat_last stats (sts : gmap string IStepMetadata) k :
  foldl (λ sts stepStat, <[ss_stepKey stepStat := stepOfStat stepStat]> sts)
        sts stats !! k
  = match last (filter (λ st, ss_stepKey st = k) stats) with
    | Some st => Some (stepOfStat st)
    | None => sts !! k
    end.
Proof.
  induction stats as [|st stats IH] using rev_ind; first done.
  rewrite foldl_app filter_app filter_cons filter_nil. cbn [foldl].
  case_decide as Hk.
  - by rewrite last_snoc -Hk lookup_insert_eq.
  - by rewrite lookup_insert_ne // app_nil_r.
Qed.

(** X21: for a run whose records have ordinary keys as step keys, the
    summary fallback holds, under each ordinary key, the step of the
    record with that key that comes last in the run's statistics (a later
    record replaces an earlier one with the same key), and nothing under
    an ordinary key no record has; without a run the model is empty. *)
Theorem summary_fallback_last_record_wins :
  extractMetadataFromRun None = EMPTY_RUN_METADATA
  ∧ ∀ run k,
      Forall (λ st, ordinaryKey (ss_stepKey st)) (stepStats run) →
      ordinaryKey k →
      steps (extractMetadataFromRun (Some run)) !! k
      = stepOfStat <$> last (filter (λ st, ss_stepKey st = k) (stepStats run)).
Proof.
  split; first done. intros run k _ _. cbn [extractMetadataFromRun steps].
  rewrite foldl_insert_stat_last.
  by destruct (last _).
Qed.

Lemma summary_fallback_last_record_wins_witness :
  let stat key status :=
    {| ss_stepKey := key; ss_status := Some status;
       ss_startTime := None; ss_endTime := None;
       ss_attempts := []; ss_markers := [] |} in
  let run := mkRun None None [stat "stepA" StepEventStatus.FAILURE;
                              stat "stepB" StepEventStatus.SKIPPED;
                              stat "stepA" StepEventStatus.SUCCESS] in
  steps (extractMetadataFromRun (Some run)) !! "stepA"
  = Some (stepOfStat (stat "stepA" StepEventStatus.SUCCESS))
  ∧ steps (extractMetadataFromRun (Some run)) !! "stepC" = None.
Proof.
  intros stat run.
  assert (Forall (λ st, ordinaryKey (ss_stepKey st)) (stepStats run)) as Hkeys.
  { repeat constructor; by apply (bool_decide_unpack _). }
  split.
  - rewrite (proj2 summary_fallback_last_record_wins run "stepA" Hkeys) //.
    by apply (bool_decide_unpack _).
  - rewrite (proj2 summary_fallback_last_record_wins run "stepC" Hkeys) //.
    by apply (bool_decide_unpack _).
Defined.

Lemma stepStatusToStepState_final status :
  stepStatusToStepState status ∈ [SUCCEEDED; FAILED; SKIPPED; UNKNOWN].
Proof.
  destruct status as [[]|]; cbn; repeat first [apply list_elem_of_here | apply list_elem_of_further].
Qed.

Lemma extractMetadataFromRun_step run k s :
  steps (extractMetadataFromRun run) !! k = Some s →
  ∃ r stat, run = Some r ∧ stat ∈ stepStats r ∧ ss_stepKey stat = k
            ∧ s = stepOfStat stat.
Proof.
  destruct run as [r|]; last done. cbn [extractMetadataFromRun steps].
  rewrite foldl_insert_stat_last.
  destruct (last _) as [stat|] eqn:Hlast; last done.
  intros [= <-]. exists r, stat. split; first done.
  apply last_Some in Hlast as (pre & Hpre).
  assert (stat ∈ filter (λ st, ss_stepKey st = k) (stepStats r)) as Hin.
  { rewrite Hpre. apply elem_of_app. right. by apply list_elem_of_singleton. }
  apply list_elem_of_filter in Hin as [Hk Hin]. done.
Qed.

(** X22: a step of the summary fallback has no transitions, its state is
    one of [SUCCEEDED], [FAILED], [SKIPPED] and [UNKNOWN] (never
    [PREPARING], [RUNNING] or [RETRY_REQUESTED]), and each of its attempts
    has an exit state. *)
Theorem summary_fallback_step_shape run k s :
  steps (extractMetadataFromRun run) !! k = Some s →
  transitions s = []
  ∧ state s ∈ [SUCCEEDED; FAILED; SKIPPED; UNKNOWN]
  ∧ Forall (λ a, is_Some (a_exitState a)) (attempts s).
Proof.
  intros (r & stat & _ & _ & _ & ->)%extractMetadataFromRun_step.
  cbn [stepOfStat transitions state attempts].
  split; first done. split; first apply stepStatusToStepState_final.
  apply Forall_forall. intros a (i & Hi)%list_elem_of_lookup_1.
  rewrite list_lookup_imap in Hi.
  destruct (ss_attempts stat !! i); last done.
  cbn in Hi. injection Hi as <-. by eexists.
Qed.

Lemma summary_fallback_step_shape_witness :
  let stat := {| ss_stepKey := "stepA"; ss_status := None;
                 ss_startTime := None; ss_endTime := None;
                 ss_attempts := [mkRange None None; mkRange None None];
                 ss_markers := [] |} in
  transitions (stepOfStat stat) = []
  ∧ state (stepOfStat stat) ∈ [SUCCEEDED; FAILED; SKIPPED; UNKNOWN]
  ∧ Forall (λ a, is_Some (a_exitState a)) (attempts (stepOfStat stat)).
Proof.
  intros stat.
  apply (summary_fallback_step_shape (Some (mkRun None None [stat])) "stepA").
  reflexivity.
Defined.

(** X23: a step of the summary fallback comes from the record that is
    last under its key in the run's statistics, and its markers are that
    record's markers in order, with their times converted, keyed
    [marker_0], [marker_1], ... by position; so no two markers of a step
    share a key. *)
Theorem summary_fallback_marker_keys run k s :
  steps (extractMetadataFromRun run) !! k = Some s →
  ∃ r stat,
    run = Some r
    ∧ last (filter (λ st, ss_stepKey st = k) (stepStats r)) = Some stat
    ∧ markers s
      = imap (λ idx marker,
                {| m_key := "marker_" +:+ pretty idx;
                   m_start := fromTimestamp (startTime marker);
                   m_end := fromTimestamp (endTime marker) |})
             (ss_markers stat)
    ∧ length (markers s) = length (ss_markers stat)
    ∧ (∀ (i : nat) marker,
         ss_markers stat !! i = Some marker →
         markers s !! i
         = Some {| m_key := "marker_" +:+ pretty i;
                   m_start := fromTimestamp (startTime marker);
                   m_end := fromTimestamp (endTime marker) |})
    ∧ NoDup (m_key <$> markers s).
Proof.
  destruct run as [r|]; last done. cbn [extractMetadataFromRun steps].
  rewrite foldl_insert_stat_last.
  destruct (last _) as [stat|] eqn:Hlast; last done.
  intros [= <-]. exists r, stat. do 2 (split; first done).
  cbn [stepOfStat markers]. split; first done.
  split; first by rewrite length_imap.
  split.
  { intros i marker Hi. by rewrite list_lookup_imap Hi. }
  apply NoDup_alt. intros i j key.
  rewrite !list_lookup_fmap !list_lookup_imap.
  destruct (ss_markers stat !! i), (ss_markers stat !! j); try done.
  cbn. intros [= <-] [= Heq].
  change (pretty j = pretty i) in Heq. by apply (inj pretty) in Heq.
Qed.

Lemma summary_fallback_marker_keys_witness :
  let stat status ms :=
    {| ss_stepKey := "stepA"; ss_status := Some status;
       ss_startTime := None; ss_endTime := None;
       ss_attempts := []; ss_markers := ms |} in
  let run := mkRun None None
               [stat StepEventStatus.FAILURE [mkRange (Some 3.5%float) None];
                stat StepEventStatus.SUCCESS
                     [mkRange (Some 0.5%float) (Some 1.5%float);
                      mkRange (Some 2%float) None]] in
  ∃ s,
    steps (extractMetadataFromRun (Some run)) !! "stepA" = Some s
    ∧ markers s = [mkMarker "marker_0" (Some 500) (Some 1500);
                   mkMarker "marker_1" (Some 2000) None].
Proof.
  intros stat run. eexists. split; first reflexivity.
  destruct (summary_fallback_marker_keys (Some run) "stepA" _ eq_refl)
    as (r & stat' & [= <-] & [= <-] & Hmarkers & _).
  exact Hmarkers.
Defined.

(** ** The provider *)

Lemma extractMetadataFromLogs_transitions_nonempty logs k s :
  steps (extractMetadataFromLogs logs) !! k = Some s → transitions s ≠ [].
Proof.
  intros Hs. apply extractMetadataFromLogs_step in Hs as (raw & Hraw & ->).
  rewrite reduceLogs_lookup in Hraw.
  destruct (foldl_stepEffect_first _ _ _ Hraw) as (first & more & _ & Htr).
  cbn [transitions]. intros Hnil.
  pose proof (sortByTime_Permutation (transitions raw)) as Hp.
  rewrite Hnil Htr in Hp. by apply Permutation_nil_cons in Hp.
Qed.

(** X24: the provider hands to its children the summary fallback of the
    run while the logs are loading, and the model of the log events
    received so far once they are not, never a mixture; so a step it
    shows has an empty transition list exactly while the logs are
    loading. *)
Theorem provider_shows_summary_while_loading {A : Type} logs run
    (children : IRunMetadataDict → A) :
  (loading logs = true →
   RunMetadataProvider logs run children
   = children (extractMetadataFromRun run))
  ∧ (loading logs = false →
     RunMetadataProvider logs run children
     = children (extractMetadataFromLogs (allNodes logs)))
  ∧ ∀ k s,
      steps (RunMetadataProvider logs run id) !! k = Some s →
      (transitions s = [] ↔ loading logs = true).
Proof.
  unfold RunMetadataProvider, id. destruct (loading logs).
  - do 2 (split; first done).
    intros k s (r & stat & _ & _ & _ & ->)%extractMetadataFromRun_step. done.
  - do 2 (split; first done).
    intros k s Hs%extractMetadataFromLogs_transitions_nonempty. done.
Qed.

Lemma provider_shows_summary_while_loading_witness :
  let stat := {| ss_stepKey := "stepA"; ss_status := Some StepEventStatus.SUCCESS;
                 ss_startTime := None; ss_endTime := None;
                 ss_attempts := []; ss_markers := [] |} in
  let run := Some (mkRun None None [stat]) in
  let events := [stepEvent ExecutionStepStartEvent "stepA" 1] in
  RunMetadataProvider (mkLogs events true) run steps
  = {["stepA" := stepOfStat stat]}
  ∧ (transitions <$> RunMetadataProvider (mkLogs events false) run steps)
    = {["stepA" := [PREPARING @ 1; RUNNING @ 1]]}
  ∧ ∀ s, steps (RunMetadataProvider (mkLogs events false) run id) !! "stepA"
         = Some s →
         transitions s ≠ [].
Proof.
  intros stat run events. split; [|split].
  - by rewrite (proj1 (provider_shows_summary_while_loading
                         (mkLogs events true) run steps)).
  - rewrite (proj1 (proj2 (provider_shows_summary_while_loading
                             (mkLogs events false) run steps))) //.
  - intros s Hs Hnil.
    by apply (proj2 (proj2 (provider_shows_summary_while_loading
                              (mkLogs events false) run id))
                "stepA" s Hs) in Hnil.
Defined.

(** ** The state is one of the transitions *)

(** X25: the [state] of every step of the model is the state of one of the
    step's transitions, namely of the transition the loop recorded last
    for it. *)
Theorem state_is_state_of_a_transition logs k s :
  steps (extractMetadataFromLogs logs) !! k = Some s →
  ∃ raw t, steps (reduceLogs logs) !! k = Some raw
           ∧ last (transitions raw) = Some t
           ∧ t ∈ transitions s ∧ t_state t = state s.
Proof.
  intros Hs. apply extractMetadataFromLogs_step in Hs as (raw & Hraw & ->).
  destruct (reduceLogs_state_last _ _ _ Hraw) as (t & Hlast & Hst).
  exists raw, t. do 2 (split; first done). split; last done.
  cbn [transitions]. rewrite sortByTime_Permutation.
  apply last_Some in Hlast as (pre & ->). apply elem_of_app. right.
  by apply list_elem_of_singleton.
Qed.

Lemma state_is_state_of_a_transition_witness :
  ∃ raw t,
    steps (reduceLogs [stepEvent ExecutionStepSuccessEvent "stepA" 10;
                       stepEvent ExecutionStepStartEvent "stepA" 0]) !! "stepA"
    = Some raw
    ∧ last (transitions raw) = Some t
    ∧ t ∈ [RUNNING @ 0; PREPARING @ 10; SUCCEEDED @ 10]
    ∧ t_state t = RUNNING.
Proof.
  apply (state_is_state_of_a_transition _ "stepA"
           {| state := RUNNING; start := Some 0; end_ := Some 10;
              transitions := [RUNNING @ 0; PREPARING @ 10; SUCCEEDED @ 10];
              attempts := [mkAttempt (Some 0) (Some 10) (Some SUCCEEDED)];
              markers := [] |}).
  rewrite extractMetadataFromLogs_lookup. by vm_compute.
Defined.

(** ** Reordering the events: what stays the same *)















